(** * InterviewScreen: the per-question capture / upload state machine

    A shallow embedding of [src/components/InterviewScreen.jsx].

    The component is a React function component.  Three kinds of data
    live in it and they are kept apart here, because the behaviour of the
    handlers depends on the difference:

    - _state_ ([useState]): every render sees the values of that render;
      a handler created by a render keeps reading those values however
      late it runs.  A handler therefore takes the [Render] it was
      created in as its first argument;
    - _refs_ ([useRef]): one shared mutable cell each, read live;
    - the browser objects the handlers talk to (recorders, intervals,
      promises, [fetch] calls), kept in maps indexed by object identity.

    The event loop is single threaded: [step] runs one task to completion
    (a browser event or the continuation of an [await]) and then lets
    React commit, which runs the effect that starts a recording.  An
    [async] function is cut at its [await]s: the part up to the [await]
    keeps the name of the function, the continuation is [_resume].

    The component is followed while it is mounted; the cleanup of the
    mount effect is the function [unmount], applied to a state the
    component has reached.  Of the JSX the expressions that depend on the
    state are embedded ([questionNumber], [questionGrid], [questionText],
    [nextDisabled], and the clock with [formatTime]).  Left out: the video
    preview, the width of the progress bar, the recording indicator and
    the status messages.  The [onComplete] prop is taken not to throw.

    The durations ([estimated_seconds], and with them [timeLeft]) are
    whole numbers of seconds, of type [Z].  A duration with a fraction,
    which the source would take and count down by whole seconds, is not
    in the model, and a property of the clock holds for whole numbers up
    to [MAX_SAFE_INTEGER], where [Z] and the numbers of JavaScript
    agree. *)

From stdpp Require Import gmap strings list fin_maps pretty.
From Stdlib Require Import ZArith.

Local Open Scope Z_scope.

(** ** Data *)

Record Question := {
  id : nat;
  text : string;
  estimated_seconds : option Z   (* [None]: the property is absent;
                                    a duration is a whole number of seconds *)
}.

Record SessionData := {
  session_id : string;
  sd_questions : option (list Question)
}.

(** [sessionData.questions || []] *)
Definition questions_of (sessionData : SessionData) : list Question :=
  default [] (sd_questions sessionData).

(** A recorded fragment is kept by its size in bytes. *)
Definition Chunk := nat.

Record Blob := { blobParts : list Chunk; blobType : string }.

Record UploadRequest := {
  u_session : string;
  u_question : nat;
  u_audio : Blob
}.

(** The values of [useState] as one render sees them. *)
Record Render := {
  currentQuestionIndex : nat;
  recording : bool;
  timeLeft : Z;
  uploading : bool;
  analyzing : bool;
  cameraReady : bool
}.

Record MediaStream := { audioTracks : nat; tracksStopped : bool }.

Record Refs := {
  mediaRecorderRef : option nat;
  audioChunksRef : list Chunk;
  streamRef : option MediaStream;
  timerRef : option nat;
  uploadLockedRef : bool
}.

(** What is installed in [recorder.onstop]: [handleRecordingStop] of some
    render, or the [resolve] of the promise a forced advance waits on. *)
Inductive StopListener :=
  | OnStop_handleRecordingStop (r : Render)
  | OnStop_resolve (p : nat).

(** Life of a [MediaRecorder].  [recorder.state] is ["recording"] in
    [Recording] and ["inactive"] in the other two; in [Stopping] the task
    that fires [dataavailable] and [stop] is queued and has not run. *)
Inductive RecorderPhase := Recording | Stopping | Stopped.

Record MediaRecorder := {
  phase : RecorderPhase;
  onstop : StopListener;
  mimeType : string
}.

Inductive FetchResult := ResponseOk | ResponseNotOk | NetworkError.

(** Browser objects and pending continuations. *)
Record Runtime := {
  recorders : gmap nat MediaRecorder;
  intervals : gmap nat Render;          (* live [setInterval]s, with the render that made them *)
  stopWaiters : gmap nat (Render * nat); (* [handleNextQuestion] suspended at [await waitForStop] *)
  uploadFetches : gmap nat Render;      (* [uploadAnswer] suspended at [await fetch] *)
  analyzeFetches : gmap nat unit;       (* [analyzeInterview] suspended at [await fetch] *)
  nextId : nat;
  mediaPending : bool;                  (* [getUserMedia] has not answered yet *)
  effectDeps : nat * bool               (* dependencies of the recording effect at the last commit *)
}.

(** What the component did to the outside. *)
Record Log := {
  uploads : list UploadRequest;
  analyzeCalls : list string;
  completions : nat;
  alerts : list string
}.

Record World := { st : Render; refs : Refs; rt : Runtime; log : Log }.

(** The browser as far as [startRecording] asks it. *)
Record Browser := {
  isTypeSupported : string → bool;
  (* [new MediaRecorder(stream, {mimeType})]: the type in use, or a throw *)
  construct : option string → option string
}.

(** ** Field updates *)

Definition with_st (f : Render → Render) (w : World) : World :=
  {| st := f (st w); refs := refs w; rt := rt w; log := log w |}.
Definition with_refs (f : Refs → Refs) (w : World) : World :=
  {| st := st w; refs := f (refs w); rt := rt w; log := log w |}.
Definition with_rt (f : Runtime → Runtime) (w : World) : World :=
  {| st := st w; refs := refs w; rt := f (rt w); log := log w |}.
Definition with_log (f : Log → Log) (w : World) : World :=
  {| st := st w; refs := refs w; rt := rt w; log := f (log w) |}.

Definition setCurrentQuestionIndex (f : nat → nat) : World → World :=
  with_st (λ s, {| currentQuestionIndex := f (currentQuestionIndex s);
                   recording := recording s; timeLeft := timeLeft s;
                   uploading := uploading s; analyzing := analyzing s;
                   cameraReady := cameraReady s |}).
Definition setRecording (b : bool) : World → World :=
  with_st (λ s, {| currentQuestionIndex := currentQuestionIndex s;
                   recording := b; timeLeft := timeLeft s;
                   uploading := uploading s; analyzing := analyzing s;
                   cameraReady := cameraReady s |}).
Definition setTimeLeft (z : Z) : World → World :=
  with_st (λ s, {| currentQuestionIndex := currentQuestionIndex s;
                   recording := recording s; timeLeft := z;
                   uploading := uploading s; analyzing := analyzing s;
                   cameraReady := cameraReady s |}).
Definition setUploading (b : bool) : World → World :=
  with_st (λ s, {| currentQuestionIndex := currentQuestionIndex s;
                   recording := recording s; timeLeft := timeLeft s;
                   uploading := b; analyzing := analyzing s;
                   cameraReady := cameraReady s |}).
Definition setAnalyzing (b : bool) : World → World :=
  with_st (λ s, {| currentQuestionIndex := currentQuestionIndex s;
                   recording := recording s; timeLeft := timeLeft s;
                   uploading := uploading s; analyzing := b;
                   cameraReady := cameraReady s |}).
Definition setCameraReady (b : bool) : World → World :=
  with_st (λ s, {| currentQuestionIndex := currentQuestionIndex s;
                   recording := recording s; timeLeft := timeLeft s;
                   uploading := uploading s; analyzing := analyzing s;
                   cameraReady := b |}).

Definition set_mediaRecorderRef (v : option nat) : World → World :=
  with_refs (λ r, {| mediaRecorderRef := v; audioChunksRef := audioChunksRef r;
                     streamRef := streamRef r; timerRef := timerRef r;
                     uploadLockedRef := uploadLockedRef r |}).
Definition set_audioChunksRef (v : list Chunk) : World → World :=
  with_refs (λ r, {| mediaRecorderRef := mediaRecorderRef r; audioChunksRef := v;
                     streamRef := streamRef r; timerRef := timerRef r;
                     uploadLockedRef := uploadLockedRef r |}).
Definition set_streamRef (v : option MediaStream) : World → World :=
  with_refs (λ r, {| mediaRecorderRef := mediaRecorderRef r;
                     audioChunksRef := audioChunksRef r;
                     streamRef := v; timerRef := timerRef r;
                     uploadLockedRef := uploadLockedRef r |}).
Definition set_timerRef (v : option nat) : World → World :=
  with_refs (λ r, {| mediaRecorderRef := mediaRecorderRef r;
                     audioChunksRef := audioChunksRef r;
                     streamRef := streamRef r; timerRef := v;
                     uploadLockedRef := uploadLockedRef r |}).
Definition set_uploadLockedRef (v : bool) : World → World :=
  with_refs (λ r, {| mediaRecorderRef := mediaRecorderRef r;
                     audioChunksRef := audioChunksRef r;
                     streamRef := streamRef r; timerRef := timerRef r;
                     uploadLockedRef := v |}).

Definition set_recorders (f : gmap nat MediaRecorder → gmap nat MediaRecorder)
  : World → World :=
  with_rt (λ r, {| recorders := f (recorders r); intervals := intervals r;
                   stopWaiters := stopWaiters r; uploadFetches := uploadFetches r;
                   analyzeFetches := analyzeFetches r; nextId := nextId r;
                   mediaPending := mediaPending r; effectDeps := effectDeps r |}).
Definition set_intervals (f : gmap nat Render → gmap nat Render) : World → World :=
  with_rt (λ r, {| recorders := recorders r; intervals := f (intervals r);
                   stopWaiters := stopWaiters r; uploadFetches := uploadFetches r;
                   analyzeFetches := analyzeFetches r; nextId := nextId r;
                   mediaPending := mediaPending r; effectDeps := effectDeps r |}).
Definition set_stopWaiters (f : gmap nat (Render * nat) → gmap nat (Render * nat))
  : World → World :=
  with_rt (λ r, {| recorders := recorders r; intervals := intervals r;
                   stopWaiters := f (stopWaiters r); uploadFetches := uploadFetches r;
                   analyzeFetches := analyzeFetches r; nextId := nextId r;
                   mediaPending := mediaPending r; effectDeps := effectDeps r |}).
Definition set_uploadFetches (f : gmap nat Render → gmap nat Render) : World → World :=
  with_rt (λ r, {| recorders := recorders r; intervals := intervals r;
                   stopWaiters := stopWaiters r; uploadFetches := f (uploadFetches r);
                   analyzeFetches := analyzeFetches r; nextId := nextId r;
                   mediaPending := mediaPending r; effectDeps := effectDeps r |}).
Definition set_analyzeFetches (f : gmap nat unit → gmap nat unit) : World → World :=
  with_rt (λ r, {| recorders := recorders r; intervals := intervals r;
                   stopWaiters := stopWaiters r; uploadFetches := uploadFetches r;
                   analyzeFetches := f (analyzeFetches r); nextId := nextId r;
                   mediaPending := mediaPending r; effectDeps := effectDeps r |}).
Definition set_nextId (n : nat) : World → World :=
  with_rt (λ r, {| recorders := recorders r; intervals := intervals r;
                   stopWaiters := stopWaiters r; uploadFetches := uploadFetches r;
                   analyzeFetches := analyzeFetches r; nextId := n;
                   mediaPending := mediaPending r; effectDeps := effectDeps r |}).
Definition set_mediaPending (b : bool) : World → World :=
  with_rt (λ r, {| recorders := recorders r; intervals := intervals r;
                   stopWaiters := stopWaiters r; uploadFetches := uploadFetches r;
                   analyzeFetches := analyzeFetches r; nextId := nextId r;
                   mediaPending := b; effectDeps := effectDeps r |}).
Definition set_effectDeps (d : nat * bool) : World → World :=
  with_rt (λ r, {| recorders := recorders r; intervals := intervals r;
                   stopWaiters := stopWaiters r; uploadFetches := uploadFetches r;
                   analyzeFetches := analyzeFetches r; nextId := nextId r;
                   mediaPending := mediaPending r; effectDeps := d |}).

Definition log_upload (u : UploadRequest) : World → World :=
  with_log (λ l, {| uploads := uploads l ++ [u]; analyzeCalls := analyzeCalls l;
                    completions := completions l; alerts := alerts l |}).
Definition log_analyze (sid : string) : World → World :=
  with_log (λ l, {| uploads := uploads l; analyzeCalls := analyzeCalls l ++ [sid];
                    completions := completions l; alerts := alerts l |}).
Definition onComplete : World → World :=
  with_log (λ l, {| uploads := uploads l; analyzeCalls := analyzeCalls l;
                    completions := S (completions l); alerts := alerts l |}).
Definition alert (msg : string) : World → World :=
  with_log (λ l, {| uploads := uploads l; analyzeCalls := analyzeCalls l;
                    completions := completions l; alerts := alerts l ++ [msg] |}).

(** A new object identity. *)
Definition fresh (w : World) : nat * World :=
  (nextId (rt w), set_nextId (S (nextId (rt w))) w).

(** ** The recorder, as the browser provides it *)

(** Modelled from the spec: the recorder is an external collaborator
    (section 6), and section 4.2 fixes what [stop] does: "stopping a
    non-active handle is a no-op", otherwise the recorder becomes inactive
    and "produces exactly one completion event".  The completion event is
    delivered later, by the task [EvRecorderStopped]. *)
Definition stop_recorder (m : MediaRecorder) : MediaRecorder :=
  match phase m with
  | Recording => {| phase := Stopping; onstop := onstop m; mimeType := mimeType m |}
  | _ => m
  end.

Definition recorder_stop (i : nat) : World → World :=
  set_recorders (alter stop_recorder i).

(** [recorder.onstop = l] *)
Definition recorder_set_onstop (i : nat) (l : StopListener) : World → World :=
  set_recorders
    (alter (λ m, {| phase := phase m; onstop := l; mimeType := mimeType m |}) i).

(** [x || "audio/webm"] on a string: the empty string is falsy. *)
Definition mime_or_default (m : option string) : string :=
  match m with
  | Some s => if decide (s = ""%string) then "audio/webm"%string else s
  | None => "audio/webm"%string
  end.

(** ** The component *)

(** What the component is given: its [sessionData] prop and the browser
    it runs in. *)
Class Env := { sessionData : SessionData; browser : Browser }.

Section InterviewScreen.

Context {env : Env}.

Definition questions : list Question := questions_of sessionData.

(** [questions[currentQuestionIndex]] of a render *)
Definition currentQuestion (r : Render) : option Question :=
  questions !! currentQuestionIndex r.

(** The render React would produce from the current state. *)
Definition render (w : World) : Render := st w.

(** [stopCamera] (lines 53-57): every track of the stream is stopped. *)
Definition stopCamera (w : World) : World :=
  match streamRef (refs w) with
  | Some s =>
      set_streamRef (Some {| audioTracks := audioTracks s; tracksStopped := true |}) w
  | None => w
  end.

(** [analyzeInterview] (lines 214-232), up to its [await fetch]. *)
Definition analyzeInterview (w : World) : World :=
  let w := setAnalyzing true w in
  let w := stopCamera w in
  let '(f, w) := fresh w in
  let w := log_analyze (session_id sessionData) w in
  set_analyzeFetches <[f := ()]> w.

(** [analyzeInterview] after its [fetch] answered, and then the [finally]
    of the [uploadAnswer] that awaited it. *)
Definition analyzeInterview_resume (f : nat) (res : FetchResult) (w : World) : World :=
  match analyzeFetches (rt w) !! f with
  | None => w
  | Some _ =>
      let w := set_analyzeFetches (delete f) w in
      let w :=
        match res with
        | ResponseOk => onComplete w
        | _ => onComplete (alert "Failed to analyze. Check backend." w)
        end in
      setUploading false w
  end.

(** [uploadAnswer] (lines 186-212), up to its [await fetch].  The index
    and the question are those of the render [r]; building the URL reads
    [currentQuestion.id]; without a current question that throws inside
    the [try]. *)
Definition uploadAnswer (r : Render) (audioBlob : Blob) (w : World) : World :=
  let w := setUploading true w in
  match currentQuestion r with
  | None => setUploading false (alert "Failed to upload answer." w)
  | Some q =>
      let '(f, w) := fresh w in
      let w := log_upload {| u_session := session_id sessionData;
                             u_question := id q;
                             u_audio := audioBlob |} w in
      set_uploadFetches <[f := r]> w
  end.

(** [uploadAnswer] after its [fetch] answered: lines 198-211.
    [currentQuestionIndex < questions.length - 1] is a comparison of
    integers, [questions.length - 1] being -1 without questions. *)
Definition uploadAnswer_resume (f : nat) (res : FetchResult) (w : World) : World :=
  match uploadFetches (rt w) !! f with
  | None => w
  | Some r =>
      let w := set_uploadFetches (delete f) w in
      match res with
      | ResponseOk =>
          if bool_decide (Z.of_nat (currentQuestionIndex r)
                          < Z.of_nat (length questions) - 1)
          then setUploading false (setCurrentQuestionIndex S w)
          else analyzeInterview w
      | _ => setUploading false (alert "Failed to upload answer." w)
      end
  end.

(** [handleRecordingStop] (lines 171-183), the handler [startRecording]
    installs in [onstop]. *)
Definition handleRecordingStop (r : Render) (w : World) : World :=
  if uploadLockedRef (refs w) then set_uploadLockedRef false w
  else
    match audioChunksRef (refs w) with
    | [] => w
    | chunks =>
        let mime :=
          mime_or_default
            (m ← (i ← mediaRecorderRef (refs w); recorders (rt w) !! i); Some (mimeType m)) in
        uploadAnswer r {| blobParts := chunks; blobType := mime |} w
    end.

(** [stopRecording] (lines 123-134); [recording] is read from the render
    [r] the function belongs to. *)
Definition stopRecording (r : Render) (w : World) : World :=
  match mediaRecorderRef (refs w) with
  | Some i =>
      if recording r then
        let w := set_uploadLockedRef true w in
        let w := recorder_stop i w in
        let w := setRecording false w in
        match timerRef (refs w) with
        | Some t => set_timerRef None (set_intervals (delete t) w)
        | None => w
        end
      else w
  | None => w
  end.

(** [handleNextQuestion] (lines 136-168), up to its [await waitForStop]:
    the promise [p] is made, its [resolve] replaces the recorder's
    [onstop], and the recorder is stopped if the render was recording. *)
Definition handleNextQuestion (r : Render) (w : World) : World :=
  let w := set_uploadLockedRef true w in
  match mediaRecorderRef (refs w) with
  | None => w
  | Some recorder =>
      let '(p, w) := fresh w in
      let w := recorder_set_onstop recorder (OnStop_resolve p) w in
      let w := if recording r then recorder_stop recorder (setRecording false w) else w in
      set_stopWaiters <[p := (r, recorder)]> w
  end.

(** [handleNextQuestion] after [waitForStop] resolved: lines 157-167. *)
Definition handleNextQuestion_resume (p : nat) (w : World) : World :=
  match stopWaiters (rt w) !! p with
  | None => w
  | Some (r, recorder) =>
      let w := set_stopWaiters (delete p) w in
      match audioChunksRef (refs w) with
      | [] => uploadAnswer r {| blobParts := []; blobType := "audio/webm" |} w
      | chunks =>
          let mime := mime_or_default (m ← recorders (rt w) !! recorder; Some (mimeType m)) in
          uploadAnswer r {| blobParts := chunks; blobType := mime |} w
      end
  end.

(** The formats [startRecording] asks for, in order (lines 72-78). *)
Definition types : list string :=
  [ "video/webm;codecs=vp9,opus"; "video/webm;codecs=vp8,opus";
    "audio/webm;codecs=opus"; "audio/webm"; "audio/ogg;codecs=opus" ]%string.

(** [currentQuestion?.estimated_seconds || 90] *)
Definition questionTime (q : option Question) : Z :=
  match q ≫= estimated_seconds with
  | Some z => if decide (z = 0) then 90 else z
  | None => 90
  end.

(** The [catch] of [startRecording]. *)
Definition recorderError : World → World :=
  alert "Recording could not start. Check microphone permissions.".

(** [startRecording] (lines 59-121).  It has no [await] and runs in one
    piece.  The recorder's [onstop] and the interval's callback are made
    here, by the render [r]: they keep [r].  The interval is stored in
    [timerRef] over whatever was there. *)
Definition startRecording (r : Render) (w : World) : World :=
  match streamRef (refs w) with
  | None => w
  | Some stream =>
      if recording r then w
      else
        let w := set_audioChunksRef [] w in
        let w := set_uploadLockedRef false w in
        if decide (audioTracks stream = 0%nat) then recorderError w
        else
          let options := List.find (isTypeSupported browser) types in
          let made :=
            match construct browser options with
            | Some m => Some m
            | None => construct browser None
            end in
          match made with
          | None => recorderError w
          | Some mime =>
              let '(i, w) := fresh w in
              let w := set_recorders
                         <[i := {| phase := Recording;
                                   onstop := OnStop_handleRecordingStop r;
                                   mimeType := mime |}]> w in
              let w := set_mediaRecorderRef (Some i) w in
              let w := setRecording true w in
              let w := setTimeLeft (questionTime (currentQuestion r)) w in
              let '(t, w) := fresh w in
              let w := set_intervals <[t := r]> w in
              set_timerRef (Some t) w
          end
  end.

(** ** Tasks of the event loop *)

Inductive Event :=
  | EvMediaGranted (tracks : nat)   (* [getUserMedia] resolves; number of audio tracks *)
  | EvMediaDenied                   (* [getUserMedia] rejects *)
  | EvTick (t : nat)                (* interval [t] fires *)
  | EvClickNext                     (* click on the "Next" button *)
  | EvRecorderEnded (i : nat)       (* recorder [i] stops on its own *)
  | EvRecorderStopped (i : nat) (size : nat)
                                    (* queued stop task of recorder [i]:
                                       [dataavailable] with [size] bytes, then [stop] *)
  | EvUploadResponse (f : nat) (res : FetchResult)
  | EvAnalyzeResponse (f : nat) (res : FetchResult).

(** [startCamera] (lines 36-51) after [getUserMedia] answered. *)
Definition startCamera_resume (granted : option nat) (w : World) : World :=
  if mediaPending (rt w) then
    let w := set_mediaPending false w in
    match granted with
    | Some n =>
        let w := set_streamRef (Some {| audioTracks := n; tracksStopped := false |}) w in
        setCameraReady true w
    | None => alert "Please allow camera and microphone access to continue" w
    end
  else w.

(** The callback given to [setInterval] (lines 107-115), for the interval
    [t] made by render [r]: the updater reads the current [timeLeft], the
    [stopRecording] it calls is the one of [r]. *)
Definition tick (t : nat) (w : World) : World :=
  match intervals (rt w) !! t with
  | None => w
  | Some r =>
      if bool_decide (timeLeft (st w) ≤ 1)
      then setTimeLeft 0 (stopRecording r w)
      else setTimeLeft (timeLeft (st w) - 1) w
  end.

(** [mediaRecorder.ondataavailable] (lines 94-96) *)
Definition ondataavailable (size : nat) (w : World) : World :=
  if decide (0 < size)%nat
  then set_audioChunksRef (audioChunksRef (refs w) ++ [size]) w
  else w.

(** The queued stop task of recorder [i]: [dataavailable] with the data
    recorded, then [stop], handled by whatever is in [onstop] then. *)
Definition recorder_stopped (i size : nat) (w : World) : World :=
  match recorders (rt w) !! i with
  | Some m =>
      match phase m with
      | Stopping =>
          let w := set_recorders
                     <[i := {| phase := Stopped; onstop := onstop m;
                               mimeType := mimeType m |}]> w in
          let w := ondataavailable size w in
          match onstop m with
          | OnStop_handleRecordingStop r => handleRecordingStop r w
          | OnStop_resolve p => handleNextQuestion_resume p w
          end
      | _ => w
      end
  | None => w
  end.

(** The button is rendered with [disabled={uploading || analyzing}] and
    [onClick={handleNextQuestion}] of the latest render (lines 270-276). *)
Definition clickNext (w : World) : World :=
  if uploading (st w) || analyzing (st w) then w
  else handleNextQuestion (render w) w.

Definition handle (e : Event) (w : World) : World :=
  match e with
  | EvMediaGranted n => startCamera_resume (Some n) w
  | EvMediaDenied => startCamera_resume None w
  | EvTick t => tick t w
  | EvClickNext => clickNext w
  | EvRecorderEnded i => recorder_stop i w
  | EvRecorderStopped i size => recorder_stopped i size w
  | EvUploadResponse f res => uploadAnswer_resume f res w
  | EvAnalyzeResponse f res => analyzeInterview_resume f res w
  end.

(** React commits after the task.  The effect with dependencies
    [[currentQuestionIndex, cameraReady]] (lines 30-34) runs when one of
    them changed: [if (cameraReady && currentQuestion) startRecording()],
    with the functions of the render being committed. *)
Definition deps (w : World) : nat * bool :=
  (currentQuestionIndex (st w), cameraReady (st w)).

Definition commit (w : World) : World :=
  if decide (deps w = effectDeps (rt w)) then w
  else
    let w := set_effectDeps (deps w) w in
    if cameraReady (st w) && bool_decide (is_Some (currentQuestion (render w)))
    then startRecording (render w) w
    else w.

Definition step (w : World) (e : Event) : World := commit (handle e w).

Definition run (w : World) (evs : list Event) : World := fold_left step evs w.

(** The component after mounting: [startCamera] is waiting for the user,
    the recording effect ran with the camera not ready. *)
Definition mount : World :=
  {| st := {| currentQuestionIndex := 0; recording := false; timeLeft := 0;
              uploading := false; analyzing := false; cameraReady := false |};
     refs := {| mediaRecorderRef := None; audioChunksRef := []; streamRef := None;
                timerRef := None; uploadLockedRef := false |};
     rt := {| recorders := ∅; intervals := ∅; stopWaiters := ∅; uploadFetches := ∅;
              analyzeFetches := ∅; nextId := 0; mediaPending := true;
              effectDeps := (0%nat, false) |};
     log := {| uploads := []; analyzeCalls := []; completions := 0; alerts := [] |} |}.

Definition reachable (w : World) : Prop := ∃ evs, w = run mount evs.

End InterviewScreen.


(** ** Vocabulary of the properties *)

Section Vocabulary.

Context {env : Env}.

(** Recorder [i] is recording. *)
Definition active (w : World) (i : nat) : Prop :=
  ∃ m, recorders (rt w) !! i = Some m ∧ phase m = Recording.

(** No recorder of the map is recording or has its stop event still to
    come. *)
Definition stopped (recs : gmap nat MediaRecorder) : Prop :=
  ∀ i m, recs !! i = Some m → phase m = Stopped.

Definition all_stopped (w : World) : Prop := stopped (recorders (rt w)).

(** A recorder that is not stopped is the one in [mediaRecorderRef], a
    question is current ([cq]), and while it records [rec_ok] holds. *)
Definition live_only (recs : gmap nat MediaRecorder) (ref : option nat)
    (cq rec_ok : Prop) : Prop :=
  ∀ i m, recs !! i = Some m → phase m ≠ Stopped →
    ref = Some i ∧ cq ∧ (phase m = Recording → rec_ok).

(** The submissions sent for one question id. *)
Definition uploads_for (qid : nat) (w : World) : list UploadRequest :=
  filter (λ u, u_question u = qid) (uploads (log w)).

(** The request [uploadAnswer] sends for question [q]. *)
Definition submission (q : Question) (b : Blob) : UploadRequest :=
  {| u_session := session_id sessionData; u_question := id q; u_audio := b |}.

(** The chunk buffer after [dataavailable] delivered [size] bytes. *)
Definition with_data (chunks : list Chunk) (size : nat) : list Chunk :=
  if decide (0 < size)%nat then chunks ++ [size] else chunks.

(** The blob a forced advance builds from the chunk buffer. *)
Definition answer_blob (chunks : list Chunk) (mime : string) : Blob :=
  match chunks with
  | [] => {| blobParts := []; blobType := "audio/webm" |}
  | _ => {| blobParts := chunks; blobType := mime_or_default (Some mime) |}
  end.

(** Nothing is being recorded, uploaded or analysed. *)
Definition quiet (w : World) : Prop :=
  all_stopped w ∧ uploadFetches (rt w) = ∅ ∧ analyzing (st w) = false.

(** What holds of the component after every task, before React commits. *)
Record Inv0 (w : World) : Prop := {
  inv_live : live_only (recorders (rt w)) (mediaRecorderRef (refs w))
               (is_Some (currentQuestion (st w)))
               (recording (st w) = true ∧ audioChunksRef (refs w) = []
                ∧ uploadLockedRef (refs w) = false);
  inv_upload : ∀ f r, uploadFetches (rt w) !! f = Some r →
      uploading (st w) = true ∧ analyzing (st w) = false
      ∧ uploadFetches (rt w) = {[f := r]} ∧ all_stopped w;
  inv_media : mediaPending (rt w) = true →
      recorders (rt w) = ∅ ∧ uploadFetches (rt w) = ∅
      ∧ analyzing (st w) = false ∧ streamRef (refs w) = None;
  inv_before : analyzing (st w) = false →
      analyzeCalls (log w) = [] ∧ completions (log w) = 0%nat
      ∧ analyzeFetches (rt w) = ∅;
  inv_after : analyzing (st w) = true →
      analyzeCalls (log w) = [session_id sessionData]
      ∧ uploadFetches (rt w) = ∅ ∧ all_stopped w
      ∧ ((∃ f, analyzeFetches (rt w) = {[f := ()]} ∧ completions (log w) = 0%nat)
         ∨ (analyzeFetches (rt w) = ∅ ∧ completions (log w) = 1%nat));
  inv_uploading : uploading (st w) = true →
      uploadFetches (rt w) ≠ ∅ ∨ analyzeFetches (rt w) ≠ ∅
}.

(** What a task must leave behind for the commit: an index or camera
    change finds nothing being recorded, uploaded or analysed. *)
Definition committable (w : World) : Prop :=
  Inv0 w ∧ (deps w = effectDeps (rt w) ∨ quiet w).

(** The browser can construct a recorder on the stream. *)
Definition can_construct : Prop :=
  is_Some (construct browser (List.find (isTypeSupported browser) types))
  ∨ is_Some (construct browser None).

(** Recorder [m] still has the [handleRecordingStop] it was started with,
    made by a render of the current question. *)
Definition natural (w : World) (m : MediaRecorder) : Prop :=
  ∃ r, onstop m = OnStop_handleRecordingStop r
       ∧ currentQuestionIndex r = currentQuestionIndex (st w).

(** What the component sent to the backend and told its parent. *)
Definition outputs (w : World) : list UploadRequest * list string * nat :=
  (uploads (log w), analyzeCalls (log w), completions (log w)).

(** Nothing is recorded and no request is out: the session has come to
    rest, finished or stuck. *)
Definition halted (w : World) : Prop :=
  all_stopped w ∧ uploadFetches (rt w) = ∅ ∧ analyzeFetches (rt w) = ∅
  ∧ mediaPending (rt w) = false ∧ effectDeps (rt w) = deps w.

(** What holds between two tasks: the effect has also run. *)
Definition Inv (w : World) : Prop := effectDeps (rt w) = deps w ∧ Inv0 w.

End Vocabulary.

(** ** A two-question session to run the component on *)

Definition demo_questions : list Question :=
  [ {| id := 10; text := "Tell us about yourself"; estimated_seconds := Some 3 |};
    {| id := 11; text := "Why this role?"; estimated_seconds := None |} ].

Definition demo_browser : Browser :=
  {| isTypeSupported := λ t, bool_decide (t = "audio/webm"%string);
     construct := λ hint, Some (default ""%string hint) |}.

Definition demo_env : Env :=
  {| sessionData := {| session_id := "s1"; sd_questions := Some demo_questions |};
     browser := demo_browser |}.

(** The same with a single question. *)
Definition solo_env : Env :=
  {| sessionData := {| session_id := "s1"; sd_questions := Some (take 1 demo_questions) |};
     browser := demo_browser |}.

(** The first question of the two-question session is being recorded. *)
Definition recording_q0 : World := run (env := demo_env) mount [EvMediaGranted 1].

(** The session of the spec's scenario: question 10 is left to its timer
    (three seconds) for [n] more seconds, nobody presses "Next". *)
Definition timed_out (n : nat) : World :=
  run (env := demo_env) mount (EvMediaGranted 1 :: repeat (EvTick 1) (3 + n)).

(** Question 10 was ended by "Next" with five bytes recorded; the upload
    is out (fetch number 3). *)
Definition upload_pending : World :=
  run (env := demo_env) mount [EvMediaGranted 1; EvClickNext; EvRecorderStopped 0 5].

(** ... and was accepted: question 11 is being recorded. *)
Definition advanced : World :=
  run (env := demo_env) upload_pending [EvUploadResponse 3 ResponseOk].

(** The recorder of question 10 stopped on its own without any data. *)
Definition silent_stop : World :=
  run (env := demo_env) mount [EvMediaGranted 1; EvRecorderEnded 0; EvRecorderStopped 0 0].

(** ... and the user pressed "Next" after that. *)
Definition silent_stop_then_next : World :=
  run (env := demo_env) silent_stop [EvClickNext].

(** The only question of the one-question session was ended by "Next";
    the upload is out (fetch number 3). *)
Definition last_upload_pending : World :=
  run (env := solo_env) mount [EvMediaGranted 1; EvClickNext; EvRecorderStopped 0 5].

(** The two-question session with both questions ended by "Next", every
    upload accepted and the analysis failing. *)
Definition forced_session : World :=
  run (env := demo_env) advanced
    [EvClickNext; EvRecorderStopped 4 0; EvUploadResponse 7 ResponseOk;
     EvAnalyzeResponse 8 ResponseNotOk].

(** ** The clock, the page and the unmount *)

(** [String(n)] for an integer [n]: its decimal digits, after a minus
    sign if it is negative (JavaScript prints a whole number so while it
    is below 10^21). *)
Definition String_of_number (n : Z) : string := pretty n.

(** [s.padStart(targetLength, padString)]: [s] itself if it is long
    enough or there is nothing to pad with; else [padString], repeated
    and cut to the missing length, in front of [s]. *)
Definition padStart (targetLength : nat) (padString s : string) : string :=
  if decide (targetLength ≤ String.length s)%nat then s
  else if decide (padString = ""%string) then s
  else
    let fillLen := (targetLength - String.length s)%nat in
    let filler :=
      take fillLen (mjoin (replicate fillLen (String.list_ascii_of_string padString))) in
    String.string_of_list_ascii filler +:+ s.

(** [Number.MAX_SAFE_INTEGER]: up to it the whole numbers are exact in
    JavaScript, and so is the quotient of one by 60 rounded down. *)
Definition MAX_SAFE_INTEGER : Z := 9007199254740991.

(** [formatTime] (lines 234-238), on a whole number of seconds.
    [Math.floor(seconds / 60)] is the quotient rounded down, [%] is the
    remainder with the sign of the dividend. *)
Definition formatTime (seconds : Z) : string :=
  let m := seconds / 60 in
  let s := padStart 2 "0" (String_of_number (Z.rem seconds 60)) in
  String_of_number m +:+ ":" +:+ s.

Section Page.

Context {env : Env}.

(** The cleanup of the mount effect (lines 24-27): [stopCamera()], then
    [clearInterval] on what [timerRef] holds. *)
Definition unmount (w : World) : World :=
  let w := stopCamera w in
  match timerRef (refs w) with
  | Some t => set_intervals (delete t) w
  | None => w
  end.

(** [Question {currentQuestionIndex + 1} of {questions.length}] (line 245) *)
Definition questionNumber (r : Render) : string :=
  "Question " +:+ String_of_number (Z.of_nat (currentQuestionIndex r) + 1)
  +:+ " of " +:+ String_of_number (Z.of_nat (length questions)).

(** The clock (line 266) *)
Definition timer (r : Render) : string := formatTime (timeLeft r).

(** [disabled={uploading || analyzing}] of the "Next" button (line 273) *)
Definition nextDisabled (r : Render) : bool := uploading r || analyzing r.

(** [currentQuestion?.text] (line 279); [None] is [undefined]. *)
Definition questionText (r : Render) : option string := text <$> currentQuestion r.

(** The class of box [i] of the question grid (lines 291-294) *)
Definition indicatorClass (r : Render) (i : nat) : string :=
  "question-indicator " +:+
    (if decide (i < currentQuestionIndex r)%nat then "completed"
     else if decide (i = currentQuestionIndex r) then "active" else "").

(** The question grid (lines 288-298): for every question a box with its
    key, its class and its label. *)
Definition questionGrid (r : Render) : list (nat * string * nat) :=
  imap (λ i q, (id q, indicatorClass r i, S i)) questions.

End Page.

(** ** Vocabulary of the session *)

Section Session.

Context {env : Env}.

(** The submissions [us] are one for each of the questions [qs], in
    their order, each sent for this session. *)
Definition answers (us : list UploadRequest) (qs : list Question) : Prop :=
  Forall2 (λ u q, ∃ b, u = submission q b) us qs.

(** Submissions went out for the first [k] questions and for no other. *)
Definition answered (k : nat) (w : World) : Prop :=
  answers (uploads (log w)) (take k questions).

(** The stop listener of recorder [m] belongs to the current question:
    it is the [handleRecordingStop] of a render of this question, or the
    promise of a [handleNextQuestion] of such a render. *)
Definition listener_current (w : World) (m : MediaRecorder) : Prop :=
  match onstop m with
  | OnStop_handleRecordingStop r =>
      currentQuestionIndex r = currentQuestionIndex (st w)
  | OnStop_resolve p =>
      ∀ r j, stopWaiters (rt w) !! p = Some (r, j) →
             currentQuestionIndex r = currentQuestionIndex (st w)
  end.

(** How far the session has come: what was submitted, against the index. *)
Record Progress (w : World) : Prop := {
  pr_listener : ∀ i m, recorders (rt w) !! i = Some m → phase m ≠ Stopped →
      listener_current w m;
  pr_fetch : ∀ f r, uploadFetches (rt w) !! f = Some r →
      currentQuestionIndex r = currentQuestionIndex (st w)
      ∧ answered (S (currentQuestionIndex (st w))) w
      ∧ (currentQuestionIndex (st w) < length questions)%nat;
  pr_sent : answered (currentQuestionIndex (st w)) w
      ∨ (answered (S (currentQuestionIndex (st w))) w
         ∧ (currentQuestionIndex (st w) < length questions)%nat
         ∧ all_stopped w);
  pr_range : (currentQuestionIndex (st w) ≤ pred (length questions))%nat;
  pr_analysis : analyzing (st w) = true →
      S (currentQuestionIndex (st w)) = length questions
      ∧ answered (length questions) w;
  pr_media : mediaPending (rt w) = true →
      uploads (log w) = [] ∧ currentQuestionIndex (st w) = 0%nat
}.

(** The timers of earlier questions are left over; the one of the
    current question is the one in [timerRef]. *)
Definition timers_kept (w : World) : Prop :=
  (mediaPending (rt w) = true → intervals (rt w) = ∅)
  ∧ ∀ t r, intervals (rt w) !! t = Some r →
      (currentQuestionIndex r ≤ currentQuestionIndex (st w))%nat
      ∧ (currentQuestionIndex r = currentQuestionIndex (st w) →
         timerRef (refs w) = Some t).

(** A blob as [handleNextQuestion] and [handleRecordingStop] build it:
    fragments with data only, and a type. *)
Definition well_formed (b : Blob) : Prop :=
  Forall (λ c, 0 < c)%nat (blobParts b)
  ∧ blobType b ≠ ""%string
  ∧ (blobParts b = [] → blobType b = "audio/webm"%string).

(** The component after [startRecording], called by render [r], has
    started a recorder of type [mime]: the recorder and the interval are
    the next two objects. *)
Definition started (mime : string) (r : Render) (w : World) : World :=
  {| st := {| currentQuestionIndex := currentQuestionIndex (st w);
              recording := true;
              timeLeft := questionTime (currentQuestion r);
              uploading := uploading (st w);
              analyzing := analyzing (st w);
              cameraReady := cameraReady (st w) |};
     refs := {| mediaRecorderRef := Some (nextId (rt w));
                audioChunksRef := [];
                streamRef := streamRef (refs w);
                timerRef := Some (S (nextId (rt w)));
                uploadLockedRef := false |};
     rt := {| recorders :=
                <[nextId (rt w) := {| phase := Recording;
                                      onstop := OnStop_handleRecordingStop r;
                                      mimeType := mime |}]> (recorders (rt w));
              intervals := <[S (nextId (rt w)) := r]> (intervals (rt w));
              stopWaiters := stopWaiters (rt w);
              uploadFetches := uploadFetches (rt w);
              analyzeFetches := analyzeFetches (rt w);
              nextId := S (S (nextId (rt w)));
              mediaPending := mediaPending (rt w);
              effectDeps := effectDeps (rt w) |};
     log := log w |}.

(** The chunk buffer and the submissions are in order. *)
Definition blobs_ok (w : World) : Prop :=
  Forall (λ c, 0 < c)%nat (audioChunksRef (refs w))
  ∧ Forall (λ u, well_formed (u_audio u)) (uploads (log w)).

(** Nothing can happen any more: no recorder was ever made, no request
    is out, and the recording effect has run. *)
Definition idle (w : World) : Prop :=
  recorders (rt w) = ∅ ∧ mediaRecorderRef (refs w) = None
  ∧ intervals (rt w) = ∅
  ∧ uploadFetches (rt w) = ∅ ∧ analyzeFetches (rt w) = ∅
  ∧ mediaPending (rt w) = false ∧ effectDeps (rt w) = deps w.

End Session.

(** ** A session in which every question is ended by "Next" *)

(** The tasks of question number [j], ended by "Next" with [size] bytes
    recorded and its upload accepted.  The objects of question [j] are
    numbered from [4 * j]: the recorder, the interval, the promise of
    [handleNextQuestion], the upload. *)
Definition forced_round (size : nat → nat) (j : nat) : list Event :=
  [EvClickNext; EvRecorderStopped (4 * j) (size j);
   EvUploadResponse (4 * j + 3) ResponseOk].

(** The whole session of [n] questions, with the answer [res] of the
    analysis at its end. *)
Definition forced_run (size : nat → nat) (n : nat) (res : FetchResult) : list Event :=
  EvMediaGranted 1 :: flat_map (forced_round size) (seq 0 n)
    ++ [EvAnalyzeResponse (4 * n) res].

(** A session without questions. *)
Definition empty_env : Env :=
  {| sessionData := {| session_id := "s1"; sd_questions := None |};
     browser := demo_browser |}.

(** The one-question session after its only upload was accepted: the
    analysis is out. *)
Definition analysis_pending : World :=
  run (env := solo_env) mount
    [EvMediaGranted 1; EvClickNext; EvRecorderStopped 0 5;
     EvUploadResponse 3 ResponseOk].

(** The two-question session with question 10 ended by "Next" and
    accepted, as one run from the mount. *)
Definition second_question : World :=
  run (env := demo_env) mount
    [EvMediaGranted 1; EvClickNext; EvRecorderStopped 0 5;
     EvUploadResponse 3 ResponseOk].


(** ** Proof support *)

(** Compute the field updates in the goal, and the fields of the worlds
    that the hypotheses name. *)
Ltac fields :=
  cbv beta iota zeta delta [
    with_st with_refs with_rt with_log
    setCurrentQuestionIndex setRecording setTimeLeft setUploading setAnalyzing
    setCameraReady set_mediaRecorderRef set_audioChunksRef set_streamRef
    set_timerRef set_uploadLockedRef set_recorders set_intervals set_stopWaiters
    set_uploadFetches set_analyzeFetches set_nextId set_mediaPending set_effectDeps
    log_upload log_analyze onComplete alert fresh recorderError render deps
    recorder_stop recorder_set_onstop stopCamera ondataavailable
    st refs rt log
    currentQuestionIndex recording timeLeft uploading analyzing cameraReady
    mediaRecorderRef audioChunksRef streamRef timerRef uploadLockedRef
    recorders intervals stopWaiters uploadFetches analyzeFetches nextId
    mediaPending effectDeps uploads analyzeCalls completions alerts
    fst snd];
  cbn [phase onstop mimeType];
  unfold deps, render in * |-;
  cbn [st refs rt log
    currentQuestionIndex recording timeLeft uploading analyzing cameraReady
    mediaRecorderRef audioChunksRef streamRef timerRef uploadLockedRef
    recorders intervals stopWaiters uploadFetches analyzeFetches nextId
    mediaPending effectDeps uploads analyzeCalls completions alerts
    phase onstop mimeType fst snd] in * |-.

Ltac open_world w :=
  destruct w as [[idx rec tl upl ana cam] [mref chunks sref tref lock]
                   [recs ints waits ufs afs nid mp ed] [ups acs comp als]].

(** Give every render, recorder and world in the context by its fields. *)
Ltac open_all :=
  repeat match goal with
    | w : World |- _ => open_world w
    | r : Render |- _ => destruct r as [? ? ? ? ? ?]
    | m : MediaRecorder |- _ => destruct m as [? ? ?]
    | s : MediaStream |- _ => destruct s as [? ?]
    end.

Arguments mime_or_default : simpl never.

Create HintDb inv.

(** Use what the invariant says under the facts at hand. *)
Ltac inv_use :=
  repeat match goal with
    | H : ?b = ?b → _ |- _ => specialize (H eq_refl)
    | H : ?a = ?v → _, H' : ?a = ?v |- _ => specialize (H H')
    | H : ∀ f r, ?m !! f = Some r → _, H' : ?m !! _ = Some _ |- _ =>
        specialize (H _ _ H')
    | H : _ ∧ _ |- _ => destruct H
    | H : true = false → _ |- _ => clear H
    | H : false = true → _ |- _ => clear H
    end.

Ltac inv_solve :=
  try solve [eauto 4 with inv];
  intros;
  try match goal with
    | H : ∅ !! _ = Some _ |- _ => by rewrite lookup_empty in H
    | H : <[_:=_]> ∅ !! _ = Some _ |- _ =>
        apply lookup_insert_Some in H as [[<- <-]|[_ H]];
        [|by rewrite lookup_empty in H]
    end;
  inv_use; simplify_eq; try done; repeat split; eauto 4 with inv.

(** The clauses of [committable], on a world given by its fields. *)
Ltac inv_clauses :=
  split; [split|]; unfold quiet, all_stopped, currentQuestion in *; fields.

(** A task that branches on the fields only. *)
Ltac inv_handler :=
  intros [Hd [Hl Hu Hm Hb Ha Hup]];
  unfold all_stopped, currentQuestion in *;
  open_all; fields;
  repeat case_match; simplify_eq;
  inv_clauses; try done; try (by left);
  inv_solve.

(** ** Properties *)

Section Properties.

Context {env : Env}.

(** *** Recorder maps *)

Lemma stop_recorder_phase m :
  phase (stop_recorder m) = match phase m with Recording => Stopping | p => p end.
Proof. by destruct m as [[] ? ?]. Qed.

Lemma stopped_empty : stopped ∅.
Proof. intros i m. by rewrite lookup_empty. Qed.

Lemma stopped_live_only recs ref cq R : stopped recs → live_only recs ref cq R.
Proof. intros Hs i m Hi Hp. by apply Hs in Hi. Qed.

Lemma stopped_alter f i recs :
  (∀ m, phase m = Stopped → phase (f m) = Stopped) →
  stopped recs → stopped (alter f i recs).
Proof.
  intros Hf Hs j m [[-> (m0 & Hj & ->)]|[? Hj]]%lookup_alter_Some; eauto.
Qed.

Lemma stopped_alter_stop i recs : stopped recs → stopped (alter stop_recorder i recs).
Proof.
  apply stopped_alter. intros m Hm. by rewrite stop_recorder_phase, Hm.
Qed.

Lemma stopped_alter_onstop l i recs :
  stopped recs →
  stopped (alter (λ m, {| phase := phase m; onstop := l; mimeType := mimeType m |}) i recs).
Proof. by apply stopped_alter. Qed.

Lemma alter_empty_eq {A} (f : A → A) i (m : gmap nat A) : m = ∅ → alter f i m = ∅.
Proof.
  intros ->. apply map_empty. intros j. rewrite lookup_alter.
  case_decide; by rewrite lookup_empty.
Qed.

(** Stopping a recorder never makes one record. *)
Lemma live_only_alter_stop i recs ref cq R :
  live_only recs ref cq R → live_only (alter stop_recorder i recs) ref cq R.
Proof.
  intros Hl j m [[-> (m0 & Hj & ->)]|[? Hj]]%lookup_alter_Some; [|by eauto].
  rewrite stop_recorder_phase. intros Hp.
  destruct (Hl _ _ Hj) as (? & ? & ?); [by destruct (phase m0)|].
  split_and!; [done..|]. by destruct (phase m0).
Qed.

(** After stopping the recorder of the ref none records, whatever the flag. *)
Lemma live_only_alter_stop_ref i recs cq R R' :
  live_only recs (Some i) cq R →
  live_only (alter stop_recorder i recs) (Some i) cq R'.
Proof.
  intros Hl j m [[-> (m0 & Hj & ->)]|[? Hj]]%lookup_alter_Some.
  - rewrite stop_recorder_phase. intros Hp.
    destruct (Hl _ _ Hj) as (? & ? & ?); [by destruct (phase m0)|].
    split_and!; [done..|]. by destruct (phase m0).
  - intros Hp. destruct (Hl _ _ Hj Hp) as (? & ? & ?). congruence.
Qed.

Lemma live_only_alter_onstop l i recs ref cq R :
  live_only recs ref cq R →
  live_only (alter (λ m, {| phase := phase m; onstop := l; mimeType := mimeType m |}) i recs)
    ref cq R.
Proof.
  intros Hl j m [[-> (m0 & Hj & ->)]|[? Hj]]%lookup_alter_Some;
    exact (Hl _ _ Hj).
Qed.

(** Without a recorder in the ref every recorder is stopped. *)
Lemma live_only_None recs cq R : live_only recs None cq R → stopped recs.
Proof.
  intros Hl i m Hi. destruct (phase m) eqn:Hp; [| |done].
  all: by destruct (Hl _ _ Hi) as [? _]; [congruence|].
Qed.

(** Once the stop event of a live recorder was delivered, all are stopped. *)
Lemma live_only_insert_stopped i m m0 recs ref cq R :
  live_only recs ref cq R → recs !! i = Some m0 → phase m0 ≠ Stopped →
  phase m = Stopped → stopped (<[i := m]> recs).
Proof.
  intros Hl Hi Hlive Hm j mj [[<- <-]|[Hne Hj]]%lookup_insert_Some; [done|].
  destruct (phase mj) eqn:Hp; [| |done].
  all: destruct (Hl _ _ Hj) as [Hr _]; [congruence|].
  all: destruct (Hl _ _ Hi) as [Hr' _]; [done|]; congruence.
Qed.

Lemma stopped_insert_live i m recs (cq R : Prop) :
  stopped recs → cq → R → live_only (<[i := m]> recs) (Some i) cq R.
Proof.
  intros Hs Hq HR j mj [[<- <-]|[Hne Hj]]%lookup_insert_Some; [done|].
  intros Hp. by apply Hs in Hj.
Qed.

Lemma live_only_weaken recs ref cq (R R' : Prop) :
  (R → R') → live_only recs ref cq R → live_only recs ref cq R'.
Proof.
  intros HR Hl i m Hi Hp. destruct (Hl _ _ Hi Hp) as (? & ? & ?). eauto.
Qed.

(** With the flag down no recorder records. *)
Lemma live_only_flag_down recs ref cq (R R' : Prop) :
  ¬ R → live_only recs ref cq R → live_only recs ref cq R'.
Proof. intros HR. apply live_only_weaken. by intros ?%HR. Qed.

#[local] Hint Resolve stopped_empty stopped_live_only stopped_alter_stop
  stopped_alter_onstop alter_empty_eq live_only_alter_stop
  live_only_alter_stop_ref live_only_alter_onstop live_only_None
  stopped_insert_live : inv.

#[local] Hint Extern 3 (live_only _ _ _ _) =>
  eapply live_only_flag_down; [|eassumption]; by intros [? _] : inv.

(** *** The recording effect *)

Lemma startRecording_cases r w :
  startRecording r w = w
  ∨ startRecording r w = recorderError (set_uploadLockedRef false (set_audioChunksRef [] w))
  ∨ ∃ mime, is_Some (streamRef (refs w)) ∧ recording r = false ∧
      startRecording r w =
      {| st := {| currentQuestionIndex := currentQuestionIndex (st w);
                  recording := true;
                  timeLeft := questionTime (currentQuestion r);
                  uploading := uploading (st w);
                  analyzing := analyzing (st w);
                  cameraReady := cameraReady (st w) |};
         refs := {| mediaRecorderRef := Some (nextId (rt w));
                    audioChunksRef := [];
                    streamRef := streamRef (refs w);
                    timerRef := Some (S (nextId (rt w)));
                    uploadLockedRef := false |};
         rt := {| recorders :=
                    <[nextId (rt w) := {| phase := Recording;
                                          onstop := OnStop_handleRecordingStop r;
                                          mimeType := mime |}]> (recorders (rt w));
                  intervals := <[S (nextId (rt w)) := r]> (intervals (rt w));
                  stopWaiters := stopWaiters (rt w);
                  uploadFetches := uploadFetches (rt w);
                  analyzeFetches := analyzeFetches (rt w);
                  nextId := S (S (nextId (rt w)));
                  mediaPending := mediaPending (rt w);
                  effectDeps := effectDeps (rt w) |};
         log := log w |}.
Proof.
  unfold startRecording. open_all. fields.
  destruct sref as [stream|]; [|by left].
  case_match; [by left|].
  case_decide; [by right; left|].
  case_match eqn:Hm; [|by right; left].
  right; right. eexists. split; [by eauto|]. split; done.
Qed.


Lemma commit_inv w : committable w → Inv (commit w).
Proof.
  intros [HI Hq]. unfold commit. case_decide as Hd; [by split|].
  destruct Hq as [?|(Hstop & Huf & Han)]; [done|].
  pose proof HI as [Hl Hu Hm Hb Ha Hup].
  assert (Inv (set_effectDeps (deps w) w)) as HI0.
  { split; [done|]. by split. }
  destruct (cameraReady _ && _) eqn:Hc; [|done].
  apply andb_prop in Hc as [Hcam Hq%bool_decide_eq_true].
  destruct (startRecording_cases (render (set_effectDeps (deps w) w)) (set_effectDeps (deps w) w))
    as [->|[->| (mime & Hs & Hr & ->)]]; [done| |].
  - clear HI0 HI. unfold all_stopped, currentQuestion in *. open_all. fields. subst.
    split; [done|]. split; unfold all_stopped, currentQuestion; fields; try done.
    by apply stopped_live_only.
  - clear HI0 HI. unfold all_stopped, currentQuestion in *. open_all. fields. subst.
    split; [done|]. split; unfold all_stopped, currentQuestion; fields.
    + by apply stopped_insert_live.
    + intros f r. by rewrite lookup_empty.
    + intros ->. destruct Hm as (_ & _ & _ & ->); [done|]. by destruct Hs.
    + done.
    + done.
    + done.
Qed.

(** *** Every task keeps the invariant *)

Lemma tick_inv t w : Inv w → committable (tick t w).
Proof.
  intros [Hd HI]. unfold tick.
  destruct (intervals (rt w) !! t) as [r|]. 2:{ split; [exact HI|by left]. }
  unfold stopRecording. destruct HI as [Hl Hu Hm Hb Ha Hup].
  unfold all_stopped, currentQuestion in *.
  open_all. fields.
  repeat case_match; simplify_eq.
  all: inv_clauses; try done; try (by left).
  all: inv_solve.
Qed.

Lemma startCamera_resume_inv g w : Inv w → committable (startCamera_resume g w).
Proof.
  intros [Hd [Hl Hu Hm Hb Ha Hup]]. unfold startCamera_resume.
  unfold all_stopped, currentQuestion in *.
  open_all. fields.
  repeat case_match; simplify_eq.
  all: inv_clauses; try done; try (by left).
  all: inv_solve.
Qed.


Lemma clickNext_inv w : Inv w → committable (clickNext w).
Proof.
  unfold clickNext, handleNextQuestion. inv_handler.
Qed.

Lemma recorder_stop_inv i w : Inv w → committable (recorder_stop i w).
Proof.
  inv_handler.
Qed.

Lemma analyzeInterview_resume_inv f res w :
  Inv w → committable (analyzeInterview_resume f res w).
Proof.
  unfold analyzeInterview_resume. inv_handler.
  all: match goal with H : _ ∨ _ |- _ => destruct H as [(f0 & -> & ->)|[-> ->]] end;
    match goal with H : _ !! _ = Some _ |- _ =>
      first [by rewrite lookup_empty in H
            | apply lookup_singleton_Some in H as [-> _]] end;
    right; by rewrite delete_singleton_eq.
Qed.

Lemma uploadAnswer_resume_inv f res w :
  Inv w → committable (uploadAnswer_resume f res w).
Proof.
  intros [Hd HI]. unfold uploadAnswer_resume.
  destruct (uploadFetches (rt w) !! f) as [r|] eqn:Hf; [|split; [done|by left]].
  destruct (inv_upload _ HI _ _ Hf) as (Hupl & Hana & Hufs & Hstop).
  assert (delete f (uploadFetches (rt w)) = ∅) as Hdel.
  { rewrite Hufs. apply delete_singleton_eq. }
  destruct (inv_before _ HI Hana) as (Hacs & Hcomp & Hafs).
  assert (mediaPending (rt w) = false) as Hmp.
  { destruct (mediaPending (rt w)) eqn:Hmp; [|done].
    destruct (inv_media _ HI Hmp) as (_ & Hnone & _). by rewrite Hnone in Hf. }
  destruct HI as [Hl _ _ _ _ _]. clear Hf Hufs.
  unfold analyzeInterview, all_stopped, currentQuestion in *.
  open_all. fields. subst. rewrite Hdel.
  repeat case_match; simplify_eq.
  all: inv_clauses; try done; try (by left).
  all: inv_solve.
Qed.

Lemma uploadAnswer_inv r b w :
  Inv0 w → quiet w → effectDeps (rt w) = deps w → mediaPending (rt w) = false →
  committable (uploadAnswer r b w).
Proof.
  intros [Hl Hu Hm Hb Ha Hup] (Hstop & Hufs & Hana) Hd Hmp. unfold uploadAnswer.
  unfold all_stopped, currentQuestion in *.
  open_all. fields. subst.
  repeat case_match; simplify_eq.
  all: inv_clauses; try done; try (by left).
  all: inv_solve.
Qed.

Lemma handleRecordingStop_inv r w :
  Inv0 w → quiet w → effectDeps (rt w) = deps w → mediaPending (rt w) = false →
  committable (handleRecordingStop r w).
Proof.
  intros HI Hq Hd Hmp. unfold handleRecordingStop.
  case_match.
  - destruct HI as [Hl Hu Hm Hb Ha Hup]. destruct Hq as (Hstop & Hufs & Hana).
    unfold all_stopped, currentQuestion in *. open_all. fields. subst.
    inv_clauses; try done; try (by left); inv_solve.
  - case_match; [split; [done|by left]|]. by apply uploadAnswer_inv.
Qed.

Lemma handleNextQuestion_resume_inv p w :
  Inv0 w → quiet w → effectDeps (rt w) = deps w → mediaPending (rt w) = false →
  committable (handleNextQuestion_resume p w).
Proof.
  intros HI Hq Hd Hmp. unfold handleNextQuestion_resume.
  case_match; [|split; [done|by left]]. case_match.
  assert (Inv0 (set_stopWaiters (delete p) w) ∧ quiet (set_stopWaiters (delete p) w)) as [? ?].
  { destruct HI, Hq as (? & ? & ?). split; [by split|done]. }
  case_match; by apply uploadAnswer_inv.
Qed.

(** While a recorder is live nothing is being uploaded or analysed. *)
Lemma live_quiet i m w :
  Inv0 w → recorders (rt w) !! i = Some m → phase m ≠ Stopped →
  uploadFetches (rt w) = ∅ ∧ analyzing (st w) = false ∧ mediaPending (rt w) = false
  ∧ uploading (st w) = false.
Proof.
  intros HI Hi Hp.
  assert (uploadFetches (rt w) = ∅) as Hufs.
  { apply map_empty. intros f. destruct (uploadFetches (rt w) !! f) as [r|] eqn:Hf; [|done].
    destruct (inv_upload _ HI _ _ Hf) as (_ & _ & _ & Hs). by apply Hs in Hi. }
  assert (analyzing (st w) = false) as Hana.
  { destruct (analyzing (st w)) eqn:Hana; [|done].
    destruct (inv_after _ HI Hana) as (_ & _ & Hs & _). by apply Hs in Hi. }
  split_and!; [done..| |].
  - destruct (mediaPending (rt w)) eqn:Hmp; [|done].
    destruct (inv_media _ HI Hmp) as (Hnone & _). by rewrite Hnone in Hi.
  - destruct (uploading (st w)) eqn:Hupl; [|done].
    destruct (inv_before _ HI Hana) as (_ & _ & Hafs).
    destruct (inv_uploading _ HI Hupl); congruence.
Qed.

Lemma recorder_delivered i m size w :
  Inv w → recorders (rt w) !! i = Some m → phase m = Stopping →
  let w1 := ondataavailable size
              (set_recorders <[i := {| phase := Stopped; onstop := onstop m;
                                       mimeType := mimeType m |}]> w) in
  Inv0 w1 ∧ quiet w1 ∧ effectDeps (rt w1) = deps w1 ∧ mediaPending (rt w1) = false.
Proof.
  intros [Hd HI] Hi Hp.
  destruct (live_quiet i m w HI Hi) as (Hufs & Hana & Hmp & Hupl); [congruence|].
  pose proof (live_only_insert_stopped i
    {| phase := Stopped; onstop := onstop m; mimeType := mimeType m |} m _ _ _ _
    (inv_live _ HI) Hi) as Hstop.
  destruct HI as [Hl Hu Hm Hb Ha Hup].
  unfold all_stopped, currentQuestion in *. clear Hi.
  open_all. fields. subst. case_decide.
  all: split_and!; [split|..]; unfold quiet, all_stopped, currentQuestion in *; fields;
    try done.
  all: inv_solve.
  all: try (apply Hstop; by rewrite ?Hp).
Qed.

Lemma recorder_stopped_inv i size w : Inv w → committable (recorder_stopped i size w).
Proof.
  intros HI. pose proof HI as [Hd HI0]. unfold recorder_stopped.
  destruct (recorders (rt w) !! i) as [m|] eqn:Hi; [|split; [done|by left]].
  destruct (phase m) eqn:Hp; [split; [done|by left]| |split; [done|by left]].
  destruct (recorder_delivered i m size w HI Hi Hp) as (? & ? & ? & ?).
  case_match; [by apply handleRecordingStop_inv|by apply handleNextQuestion_resume_inv].
Qed.

Lemma handle_inv e w : Inv w → committable (handle e w).
Proof.
  destruct e; simpl.
  - apply startCamera_resume_inv.
  - apply startCamera_resume_inv.
  - apply tick_inv.
  - apply clickNext_inv.
  - apply recorder_stop_inv.
  - apply recorder_stopped_inv.
  - apply uploadAnswer_resume_inv.
  - apply analyzeInterview_resume_inv.
Qed.

Lemma Inv_mount : Inv mount.
Proof.
  split; [done|]. by split.
Qed.

Lemma Inv_step w e : Inv w → Inv (step w e).
Proof. intros HI. by apply commit_inv, handle_inv. Qed.

Lemma reachable_Inv w : reachable w → Inv w.
Proof.
  intros [evs ->]. induction evs as [|e evs IH] using rev_ind; [apply Inv_mount|].
  unfold run. rewrite fold_left_app. by apply Inv_step.
Qed.
(** *** Running a trace *)

Lemma run_cons w e evs : run w (e :: evs) = run (step w e) evs.
Proof. done. Qed.

Lemma run_nil w : run w [] = w.
Proof. done. Qed.

Lemma run_one w e : run w [e] = step w e.
Proof. done. Qed.

Lemma run_app w evs1 evs2 : run w (evs1 ++ evs2) = run (run w evs1) evs2.
Proof. apply fold_left_app. Qed.

Lemma run_snoc w evs e : run w (evs ++ [e]) = step (run w evs) e.
Proof. by rewrite run_app. Qed.

Lemma reachable_mount : reachable mount.
Proof. by exists []. Qed.

Lemma reachable_step w e : reachable w → reachable (step w e).
Proof. intros [evs ->]. exists (evs ++ [e]). by rewrite run_snoc. Qed.

Lemma reachable_run w evs : reachable w → reachable (run w evs).
Proof. intros [evs0 ->]. exists (evs0 ++ evs). by rewrite run_app. Qed.

(** Induction over the states the component can be in. *)
Lemma reachable_ind (P : World → Prop) :
  P mount → (∀ w e, reachable w → P w → P (step w e)) → ∀ w, reachable w → P w.
Proof.
  intros H0 HS w [evs ->].
  induction evs as [|e evs IH] using rev_ind; [done|].
  rewrite run_snoc. apply HS; [by exists evs | done].
Qed.

(** What the invariant gives while a recorder records. *)
Lemma active_facts w i :
  reachable w → active w i →
  mediaRecorderRef (refs w) = Some i
  ∧ is_Some (currentQuestion (st w))
  ∧ recording (st w) = true
  ∧ audioChunksRef (refs w) = []
  ∧ uploadLockedRef (refs w) = false
  ∧ uploadFetches (rt w) = ∅
  ∧ uploading (st w) = false
  ∧ analyzing (st w) = false
  ∧ effectDeps (rt w) = deps w
  ∧ analyzeFetches (rt w) = ∅
  ∧ mediaPending (rt w) = false.
Proof.
  intros [Hd HI]%reachable_Inv (m & Hi & Hp).
  destruct (inv_live _ HI _ _ Hi) as (? & ? & ? & ? & ?); [congruence|done|].
  destruct (live_quiet i m w HI Hi) as (? & Hana & ? & ?); [congruence|].
  destruct (inv_before _ HI Hana) as (_ & _ & ?).
  by split_and!.
Qed.

(** Once the stop event of the recorder in the ref was delivered, every
    recorder is stopped. *)
Lemma delivered_stopped w i m m' recs' :
  reachable w → mediaRecorderRef (refs w) = Some i →
  recs' !! i = Some m → phase m' = Stopped →
  (∀ j, j ≠ i → recs' !! j = recorders (rt w) !! j) →
  stopped (<[i := m']> recs').
Proof.
  intros [_ HI]%reachable_Inv Href Hi Hm' Hsame j mj.
  intros [[<- <-]|[Hne Hj]]%lookup_insert_Some; [done|].
  rewrite Hsame in Hj by done.
  destruct (phase mj) eqn:Hp; [| |done].
  all: destruct (inv_live _ HI _ _ Hj) as (? & _); congruence.
Qed.

(** Decide a branch of the task at hand from the context. *)
Ltac branch :=
  first [ rewrite lookup_alter_eq | rewrite lookup_insert_eq | rewrite lookup_delete_eq
        | rewrite lookup_empty
        | match goal with H : _ !! _ = Some _ |- _ => rewrite H end
        | match goal with H : _ !! _ = None |- _ => rewrite H end
        | rewrite decide_True by done | rewrite decide_False by done
        | rewrite bool_decide_eq_true_2 by (done || lia)
        | rewrite bool_decide_eq_false_2 by (done || lia)
        | progress unfold stop_recorder
        | progress simpl ].

Ltac branches := fields; repeat (branch; fields).

Ltac decided :=
  lazymatch goal with
  | |- context [_ !! _] => fail "a lookup is left undecided"
  | |- context [decide _] => fail "a test is left undecided"
  | |- context [bool_decide _] => fail "a test is left undecided"
  | |- _ => reflexivity
  end.

(** Compute the world a task leaves, handler by handler from the outside
    in, so that no call is computed under a branch that is not taken. *)
Ltac exec_handle :=
  unfold handle; branches;
  unfold clickNext, recorder_stopped, tick, startCamera_resume,
    uploadAnswer_resume, analyzeInterview_resume; branches;
  unfold handleNextQuestion, handleNextQuestion_resume, handleRecordingStop,
    stopRecording, analyzeInterview; branches;
  unfold uploadAnswer, currentQuestion; branches;
  decided.

Ltac exec_commit := unfold commit; branches; decided.

(** Run the first task of a trace whose commit has nothing to do. *)
Ltac exec :=
  match goal with
  | |- context [run ?w (?e :: ?evs)] =>
      rewrite (run_cons w e evs); change (step w e) with (commit (handle e w));
      let H := fresh in
      eassert (handle e w = _) as H; [exec_handle | rewrite H; clear H];
      match goal with
      | |- context [commit ?w'] =>
          eassert (commit w' = _) as H; [exec_commit | rewrite H; clear H]
      end
  end.

(** Name the fields of the worlds at hand and compute the hypotheses. *)
Ltac open_hyps := open_all; unfold deps in * |-; simpl in * |-; subst.

(** *** Commit, rest and intervals *)

Lemma commit_settled w : effectDeps (rt w) = deps w → commit w = w.
Proof. intros Hd. unfold commit. by rewrite decide_True. Qed.

(** The effect sends nothing and leaves the index and the requests alone. *)
Lemma commit_frame w :
  outputs (commit w) = outputs w
  ∧ currentQuestionIndex (st (commit w)) = currentQuestionIndex (st w)
  ∧ uploadFetches (rt (commit w)) = uploadFetches (rt w)
  ∧ analyzeFetches (rt (commit w)) = analyzeFetches (rt w)
  ∧ uploading (st (commit w)) = uploading (st w).
Proof.
  unfold commit. case_decide; [done|]. case_match; [|done].
  match goal with |- context [startRecording ?r ?w] =>
    destruct (startRecording_cases r w) as [->|[->|(mime & _ & _ & ->)]] end; done.
Qed.

Lemma halted_handle e w :
  halted w →
  halted (handle e w) ∧ outputs (handle e w) = outputs w
  ∧ currentQuestionIndex (st (handle e w)) = currentQuestionIndex (st w).
Proof.
  intros (Hs & Hu & Ha & Hm & Hd). unfold halted, outputs, all_stopped in *.
  destruct e; simpl.
  - unfold startCamera_resume. rewrite Hm. by split_and!.
  - unfold startCamera_resume. rewrite Hm. by split_and!.
  - unfold tick, stopRecording. open_all. fields. subst.
    repeat case_match; simplify_eq; split_and!; eauto with inv.
  - unfold clickNext, handleNextQuestion. open_all. fields. subst.
    repeat case_match; simplify_eq; split_and!; eauto with inv.
  - open_all. fields. subst. split_and!; eauto with inv.
  - unfold recorder_stopped. case_match eqn:Hi; [|by split_and!].
    apply Hs in Hi. rewrite Hi. by split_and!.
  - unfold uploadAnswer_resume. rewrite Hu, lookup_empty. by split_and!.
  - unfold analyzeInterview_resume. rewrite Ha, lookup_empty. by split_and!.
Qed.

Lemma halted_step e w : halted w → halted (step w e) ∧ outputs (step w e) = outputs w
  ∧ currentQuestionIndex (st (step w e)) = currentQuestionIndex (st w).
Proof.
  intros Hh. destruct (halted_handle e w Hh) as (Hh' & ? & ?).
  unfold step. rewrite commit_settled; [done|]. by destruct Hh' as (_ & _ & _ & _ & ?).
Qed.

(** Once halted, nothing is ever sent again and the index stays. *)
Lemma halted_forever w evs :
  halted w → outputs (run w evs) = outputs w
  ∧ currentQuestionIndex (st (run w evs)) = currentQuestionIndex (st w).
Proof.
  revert w. induction evs as [|e evs IH]; intros w Hh; [done|].
  destruct (halted_step e w Hh) as (Hh' & <- & <-). rewrite run_cons. by apply IH.
Qed.

(** An interval is always created by a render that was not recording. *)
Lemma interval_render w :
  reachable w → ∀ t r, intervals (rt w) !! t = Some r → recording r = false.
Proof.
  revert w.
  apply (reachable_ind
           (λ w, ∀ t r, intervals (rt w) !! t = Some r → recording r = false)).
  { intros t r. simpl. by rewrite lookup_empty. }
  intros w e _ IH.
  assert (∀ t r, intervals (rt (handle e w)) !! t = Some r →
                 intervals (rt w) !! t = Some r) as Hh.
  { intros t r. clear IH. destruct e; simpl;
      unfold startCamera_resume, tick, stopRecording, clickNext, handleNextQuestion,
        recorder_stopped, handleRecordingStop, handleNextQuestion_resume,
        uploadAnswer_resume, analyzeInterview, analyzeInterview_resume, uploadAnswer;
      open_world w; fields; repeat case_match; simplify_eq; fields; try done.
    all: by intros [_ ?]%lookup_delete_Some. }
  intros t r. unfold step, commit. case_decide; [by eauto|]. case_match; [|by eauto].
  match goal with |- context [startRecording ?r ?w] =>
    destruct (startRecording_cases r w) as [->|[->|(mime & _ & Hrec & ->)]] end; eauto.
  simpl. intros [[_ <-]|[_ ?]]%lookup_insert_Some; eauto.
Qed.

(** *** The stop handler of a recording recorder *)

(** The stop handlers leave the recorders as they are. *)
Lemma uploadAnswer_recorders r b w :
  recorders (rt (uploadAnswer r b w)) = recorders (rt w).
Proof. unfold uploadAnswer. destruct (currentQuestion r); by open_world w. Qed.

Lemma handleRecordingStop_recorders r w :
  recorders (rt (handleRecordingStop r w)) = recorders (rt w).
Proof.
  unfold handleRecordingStop. repeat case_match; try done.
  by rewrite uploadAnswer_recorders.
Qed.

Lemma handleNextQuestion_resume_recorders p w :
  recorders (rt (handleNextQuestion_resume p w)) = recorders (rt w).
Proof.
  unfold handleNextQuestion_resume. repeat case_match; try done.
  all: rewrite uploadAnswer_recorders; by open_world w.
Qed.

(** While it records, a recorder has the stop handler of the render that
    started it, and that render is of the current question. *)
Lemma recording_natural w :
  reachable w →
  ∀ i m, recorders (rt w) !! i = Some m → phase m = Recording → natural w m.
Proof.
  revert w.
  apply (reachable_ind (λ w, ∀ i m, recorders (rt w) !! i = Some m →
                                     phase m = Recording → natural w m)).
  { intros i m. simpl. by rewrite lookup_empty. }
  intros w e Hr IH. apply reachable_Inv in Hr as [Hd HI].
  assert (∀ i m, recorders (rt (handle e w)) !! i = Some m →
                 phase m = Recording → natural (handle e w) m) as Hh.
  { intros i m. destruct e; simpl.
    - unfold startCamera_resume. repeat case_match; apply IH.
    - unfold startCamera_resume. repeat case_match; apply IH.
    - unfold tick, stopRecording, natural in *. open_world w. fields.
      repeat case_match; simplify_eq; fields; try exact (IH _ _).
      all: intros [[-> (m0 & Hj & ->)]|[? Hj]]%lookup_alter_Some;
        [|exact (IH _ _ Hj)].
      all: rewrite stop_recorder_phase; intros Hp; destruct (phase m0); discriminate.
    - unfold clickNext, handleNextQuestion, natural in *. open_world w. fields.
      repeat case_match; simplify_eq; fields; try exact (IH _ _).
      + intros [[-> (m0 & Hj & ->)]|[? Hj]]%lookup_alter_Some;
          [|rewrite lookup_alter_ne in Hj by done; exact (IH _ _ Hj)].
        rewrite stop_recorder_phase; intros Hp; case_match; discriminate.
      + intros [[-> (m0 & Hj & ->)]|[? Hj]]%lookup_alter_Some; [|exact (IH _ _ Hj)].
        simpl. intros Hp.
        by destruct (inv_live _ HI _ _ Hj) as (_ & _ & ? & _); [simpl; congruence|done|].
    - unfold natural in *. open_world w. fields.
      intros [[-> (m0 & Hj & ->)]|[? Hj]]%lookup_alter_Some; [|exact (IH _ _ Hj)].
      rewrite stop_recorder_phase; intros Hp; destruct (phase m0); discriminate.
    - pose proof (handle_inv (EvRecorderStopped i0 size) w (conj Hd HI)) as Hc.
      simpl in Hc. revert Hc. unfold recorder_stopped.
      destruct (recorders (rt w) !! i0) as [m0|] eqn:Hi0; [|intros _; apply IH].
      destruct (phase m0) eqn:Hp0; try (intros _; apply IH).
      destruct (recorder_delivered i0 m0 size w) as (_ & (Hs & _) & _); [done..|].
      intros _ Hi Hp. exfalso. revert Hi.
      case_match;
        rewrite ?handleRecordingStop_recorders, ?handleNextQuestion_resume_recorders;
        intros Hi%Hs; congruence.
    - unfold uploadAnswer_resume.
      destruct (uploadFetches (rt w) !! f) as [r|] eqn:Hf; [|apply IH].
      destruct (inv_upload _ HI _ _ Hf) as (_ & _ & _ & Hs).
      unfold analyzeInterview, all_stopped in *. open_world w. simpl in Hs.
      destruct res; [case_bool_decide|..]; destruct sref; fields;
        intros Hi%Hs; congruence.
    - unfold analyzeInterview_resume, natural in *. open_world w. fields.
      repeat case_match; simplify_eq; fields; exact (IH _ _). }
  intros i m. unfold step, commit. case_decide; [by eauto|].
  assert (∀ w', (∀ i m, recorders (rt w') !! i = Some m → phase m = Recording → natural w' m) →
     ∀ i m, recorders (rt (set_effectDeps (deps w') w')) !! i = Some m → phase m = Recording →
       natural (set_effectDeps (deps w') w') m) as Hset by done.
  case_match; [|by apply Hset].
  match goal with |- context [startRecording ?r ?w] =>
    destruct (startRecording_cases r w) as [->|[->|(mime & _ & Hrec & ->)]] end;
    [by apply Hset|by apply (Hset _ Hh)|].
  simpl. intros [[<- <-]|[_ Hi]]%lookup_insert_Some Hp; [by eexists|].
  exact (Hh _ _ Hi Hp).
Qed.

(** *** The ticks and the guard of startRecording *)



(** C10: starting a recording is a no-op when no stream was acquired or
    a recording is already active: [startRecording] returns the world
    unchanged (chunk buffer, upload lock and recorders included).  So at
    most one recorder is active in any state the component reaches, and
    while one is active the start that the effect would make changes
    nothing. *)
Theorem C10_start_is_guarded :
  (∀ r w, streamRef (refs w) = None ∨ recording r = true → startRecording r w = w)
  ∧ (∀ w i j, reachable w → active w i → active w j → i = j)
  ∧ (∀ w i, reachable w → active w i → startRecording (render w) w = w).
Proof.
  split_and!.
  - intros r w [H|H]; unfold startRecording; rewrite H; [done|].
    by destruct (streamRef (refs w)).
  - intros w i j Hr Hi Hj.
    destruct (active_facts w i Hr Hi) as (Hi' & _).
    destruct (active_facts w j Hr Hj) as (Hj' & _). congruence.
  - intros w i Hr Hi.
    destruct (active_facts w i Hr Hi) as (_ & _ & Hrec & _).
    unfold startRecording, render. rewrite Hrec. by destruct (streamRef (refs w)).
Qed.

(** *** The timer's stop *)

(** No tick ever stops a recorder: the [stopRecording] an interval calls
    belongs to a render that was not recording, and returns at once. *)
Lemma tick_never_stops w t :
  reachable w →
  recorders (rt (step w (EvTick t))) = recorders (rt w)
  ∧ outputs (step w (EvTick t)) = outputs w
  ∧ uploadLockedRef (refs (step w (EvTick t))) = uploadLockedRef (refs w).
Proof.
  intros Hr. pose proof (interval_render w Hr t) as Hint.
  apply reachable_Inv in Hr as [Hd _].
  unfold step. simpl. unfold tick, stopRecording.
  destruct (intervals (rt w) !! t) as [r|]; [|by rewrite commit_settled].
  rewrite (Hint r eq_refl).
  destruct (mediaRecorderRef (refs w)); case_bool_decide;
    (rewrite commit_settled; [|by open_world w]); by open_world w.
Qed.

(** C3 (the code does otherwise): while a recorder records, the timer
    never stops it: a tick leaves the recorders and the lock as they are
    and sends nothing.  And where [stopRecording] does go through, that
    is for a render that sees the recording, it sets the upload lock
    itself before it stops the recorder; the stop handler
    [handleRecordingStop] then finds the lock, clears it and uploads
    nothing, and nothing is sent later either. *)
Theorem C3_timer_stop_is_locked w i :
  reachable w → active w i →
  (∀ t, recorders (rt (step w (EvTick t))) = recorders (rt w)
        ∧ outputs (step w (EvTick t)) = outputs w
        ∧ uploadLockedRef (refs (step w (EvTick t))) = uploadLockedRef (refs w))
  ∧ ∀ r size, recording r = true →
      let w1 := stopRecording r w in
      let w2 := step w1 (EvRecorderStopped i size) in
      uploadLockedRef (refs w) = false
      ∧ uploadLockedRef (refs w1) = true
      ∧ (∃ m r0, recorders (rt w1) !! i = Some m ∧ phase m = Stopping
                 ∧ onstop m = OnStop_handleRecordingStop r0)
      ∧ outputs w2 = outputs w
      ∧ uploadLockedRef (refs w2) = false
      ∧ ∀ evs, outputs (run w2 evs) = outputs w.
Proof.
  intros Hr (m & Hi & Hp). split; [intros t; by apply tick_never_stops|].
  intros r size Hrec. cbv zeta.
  destruct (active_facts w i Hr) as
    (Hm & _ & _ & Hch & Hlock & Hufs & Hupl & Hana & Hd & Hafs & Hmp); [by exists m|].
  destruct (recording_natural w Hr i m Hi Hp) as (r0 & Hon & _).
  pose proof (λ m', delivered_stopped w i (stop_recorder m) m'
                      (alter stop_recorder i (recorders (rt w))) Hr Hm) as Hst.
  clear Hr. destruct r as [? ? ? ? ? ?], m as [? ? ?]. open_world w.
  unfold deps in *. simpl in *. subst.
  destruct tref, (decide (0 < size)%nat).
  all: eassert (stopRecording _ _ = _) as ->;
    [unfold stopRecording; fields; reflexivity|].
  all: rewrite <- run_one; exec; rewrite run_nil.
  all: split_and!; try done.
  all: try (eexists _, _; simpl; rewrite lookup_alter_eq, Hi; by split_and!).
  all: intros evs;
    match goal with |- outputs (run ?W _) = _ =>
      destruct (halted_forever W evs) as [-> _]; [|done] end.
  all: split_and!; try done; unfold all_stopped; simpl.
  all: apply Hst; [by rewrite lookup_alter_eq, Hi|done|].
  all: intros j Hj; by rewrite lookup_alter_ne.
Qed.

(** *** Failure of an upload; the analysis *)

(** What the invariant gives while an upload is out. *)
Lemma upload_facts w f r :
  reachable w → uploadFetches (rt w) !! f = Some r →
  uploading (st w) = true
  ∧ analyzing (st w) = false
  ∧ uploadFetches (rt w) = {[f := r]}
  ∧ all_stopped w
  ∧ analyzeFetches (rt w) = ∅
  ∧ analyzeCalls (log w) = []
  ∧ completions (log w) = 0%nat
  ∧ mediaPending (rt w) = false
  ∧ effectDeps (rt w) = deps w.
Proof.
  intros [Hd HI]%reachable_Inv Hf.
  destruct (inv_upload _ HI _ _ Hf) as (? & Hana & Hufs & ?).
  destruct (inv_before _ HI Hana) as (? & ? & ?).
  split_and!; try done.
  destruct (mediaPending (rt w)) eqn:Hmp; [|done].
  destruct (inv_media _ HI Hmp) as (_ & Hnone & _). by rewrite Hnone in Hf.
Qed.

(** Once the analysis has started, [analyzing] stays up. *)
Lemma analyzing_stays w e :
  analyzing (st w) = true → analyzing (st (step w e)) = true.
Proof.
  intros Ha.
  assert (analyzing (st (handle e w)) = true) as Hh.
  { destruct e; simpl;
      unfold startCamera_resume, tick, stopRecording, clickNext, handleNextQuestion,
        recorder_stopped, handleRecordingStop, handleNextQuestion_resume,
        uploadAnswer_resume, analyzeInterview, analyzeInterview_resume, uploadAnswer;
      open_world w; simpl in Ha; subst; fields; repeat case_match; simplify_eq;
      fields; done. }
  unfold step, commit. case_decide; [done|]. case_match; [|done].
  match goal with |- context [startRecording ?r ?w] =>
    destruct (startRecording_cases r w) as [->|[->|(mime & _ & _ & ->)]] end; done.
Qed.

Lemma analyzing_stays_run w evs :
  analyzing (st w) = true → analyzing (st (run w evs)) = true.
Proof.
  revert w. induction evs as [|e evs IH]; intros w Ha; [done|].
  rewrite run_cons. by apply IH, analyzing_stays.
Qed.

(** C8: if the upload of a question fails, by a response that is not ok
    or by a network error, the session stays where it is: the index is
    not advanced, no recorder is started, no analysis is called and the
    request is not repeated; the user is told, and whatever happens next
    nothing more is sent and the index does not move. *)
Theorem C8_upload_failure_halts w f r res :
  reachable w → uploadFetches (rt w) !! f = Some r → res ≠ ResponseOk →
  let w' := step w (EvUploadResponse f res) in
  currentQuestionIndex (st w') = currentQuestionIndex (st w)
  ∧ recorders (rt w') = recorders (rt w)
  ∧ outputs w' = outputs w
  ∧ uploadFetches (rt w') = ∅
  ∧ analyzeFetches (rt w') = ∅
  ∧ uploading (st w') = false
  ∧ alerts (log w') = alerts (log w) ++ ["Failed to upload answer."%string]
  ∧ ∀ evs, outputs (run w' evs) = outputs w
           ∧ currentQuestionIndex (st (run w' evs)) = currentQuestionIndex (st w).
Proof.
  intros Hr Hf Hres. cbv zeta.
  destruct (upload_facts w f r Hr Hf) as
    (Hupl & Hana & Hufs & Hst & Hafs & Hacs & Hcomp & Hmp & Hd).
  assert (delete f (uploadFetches (rt w)) = ∅) as Hdel.
  { rewrite Hufs. apply delete_singleton_eq. }
  eassert (step w (EvUploadResponse f res) = _) as ->.
  { unfold step. simpl. unfold uploadAnswer_resume. rewrite Hf.
    rewrite commit_settled; [|by destruct res; open_world w].
    instantiate (1 := setUploading false (alert "Failed to upload answer."
                        (set_uploadFetches (delete f) w))).
    by destruct res. }
  unfold all_stopped, deps in *. open_world w. simpl in *. subst. rewrite Hdel.
  split_and!; try done.
  intros evs.
  match goal with |- outputs (run ?W _) = _ ∧ _ =>
    destruct (halted_forever W evs) as [-> ->]; [|done] end.
  by split_and!.
Qed.

(** C7: after the upload of the last question succeeded the analysis is
    called exactly once, and the completion callback is invoked exactly
    once, whether the analysis succeeds or fails: before the response
    nothing was called; the response makes the one call; as long as the
    analysis is out no second call and at most one completion can come
    about; and once it answered, ok or not, the callback was invoked once
    and nothing changes that afterwards. *)
Theorem C7_analysis_and_completion_once w f r :
  reachable w → uploadFetches (rt w) !! f = Some r →
  S (currentQuestionIndex r) = length questions →
  let w1 := step w (EvUploadResponse f ResponseOk) in
  outputs w = (uploads (log w), [], 0%nat)
  ∧ outputs w1 = (uploads (log w), [session_id sessionData], 0%nat)
  ∧ (∀ evs, analyzeCalls (log (run w1 evs)) = [session_id sessionData]
            ∧ (completions (log (run w1 evs)) ≤ 1)%nat)
  ∧ ∃ a, analyzeFetches (rt w1) = {[a := ()]}
      ∧ ∀ res evs,
          outputs (run (step w1 (EvAnalyzeResponse a res)) evs)
          = (uploads (log w), [session_id sessionData], 1%nat).
Proof.
  intros Hr Hf Hlast. cbv zeta.
  destruct (upload_facts w f r Hr Hf) as
    (Hupl & Hana & Hufs & Hst & Hafs & Hacs & Hcomp & Hmp & Hd).
  assert (delete f (uploadFetches (rt w)) = ∅) as Hdel.
  { rewrite Hufs. apply delete_singleton_eq. }
  assert (reachable (step w (EvUploadResponse f ResponseOk))) as Hr1
    by by apply reachable_step.
  assert (step w (EvUploadResponse f ResponseOk)
          = set_uploadFetches (delete f) (analyzeInterview w)) as Hw1.
  { unfold step. simpl. unfold uploadAnswer_resume. rewrite Hf.
    rewrite bool_decide_eq_false_2 by lia.
    rewrite commit_settled; unfold analyzeInterview; open_world w; simpl in *;
      by destruct sref. }
  rewrite Hw1 in *. clear Hw1.
  split_and!.
  - unfold outputs. by rewrite Hacs, Hcomp.
  - unfold outputs, analyzeInterview. open_world w. simpl in *. subst. by destruct sref.
  - intros evs.
    assert (analyzing (st (run (set_uploadFetches (delete f) (analyzeInterview w)) evs))
            = true) as Ha.
    { apply analyzing_stays_run. unfold analyzeInterview. open_world w. by destruct sref. }
    pose proof (reachable_run _ evs Hr1) as [_ HI]%reachable_Inv.
    destruct (inv_after _ HI Ha) as (-> & _ & _ & [(? & _ & ->)|(_ & ->)]); split; (done || lia).
  - exists (nextId (rt w)). split.
    { unfold analyzeInterview. open_world w. simpl in *. subst. by destruct sref. }
    intros res evs.
    match goal with |- outputs (run ?W _) = _ =>
      destruct (halted_forever W evs) as [-> _] end.
    + unfold step. simpl. unfold analyzeInterview_resume, analyzeInterview.
      unfold all_stopped, deps in *. open_world w. simpl in *. subst.
      destruct sref, res; simpl; rewrite lookup_insert_eq;
        (rewrite commit_settled; [|done]); simpl;
        split_and!; try done; apply delete_singleton_eq.
    + unfold step. simpl. unfold analyzeInterview_resume, analyzeInterview, outputs.
      open_world w. simpl in *. subst.
      destruct sref, res; simpl; rewrite lookup_insert_eq;
        (rewrite commit_settled; [|done]); done.
Qed.

(** *** Pressing Next twice *)

(** C6: if "Next" is pressed twice before the first upload resolves,
    whether the second press comes before the recorder's stop event or
    after it, exactly one upload is sent for the question, one request is
    out, and when it is accepted the index has advanced by exactly one
    (or, on the last question, the analysis was called once). *)
Theorem C6_double_advance w i size :
  reachable w → active w i →
  ∃ q mime,
    currentQuestion (st w) = Some q ∧
    ∀ evs,
      evs = [EvClickNext; EvClickNext; EvRecorderStopped i size]
      ∨ evs = [EvClickNext; EvRecorderStopped i size; EvClickNext] →
      let w3 := run w evs in
      uploads (log w3)
      = uploads (log w) ++ [submission q (answer_blob (with_data [] size) mime)]
      ∧ ∃ f r, uploadFetches (rt w3) = {[f := r]}
          ∧ let w4 := step w3 (EvUploadResponse f ResponseOk) in
            uploads (log w4) = uploads (log w3)
            ∧ ((S (currentQuestionIndex (st w)) < length questions)%nat →
                 currentQuestionIndex (st w4) = S (currentQuestionIndex (st w))
                 ∧ analyzeCalls (log w4) = [])
            ∧ (S (currentQuestionIndex (st w)) = length questions →
                 currentQuestionIndex (st w4) = currentQuestionIndex (st w)
                 ∧ analyzeCalls (log w4) = [session_id sessionData]).
Proof.
  intros Hr (m & Hi & Hp).
  destruct (active_facts w i Hr) as
    (Hm & [q Hq] & Hrec & Hch & Hlock & Hufs & Hupl & Hana & Hd & Hafs & Hmp);
    [by exists m|].
  pose proof (reachable_Inv w Hr) as [_ HI].
  destruct (inv_before _ HI Hana) as (Hacs & _). clear HI Hr.
  exists q, (mimeType m). split; [done|].
  unfold currentQuestion, submission, answer_blob, with_data in *.
  intros evs Hevs. cbv zeta.
  destruct m as [? ? mime]. open_hyps.
  destruct (decide (0 < size)%nat), Hevs as [-> | ->].
  all: exec; exec; exec; rewrite run_nil.
  all: split; [done|]; eexists _, _; split; [by rewrite insert_empty|].
  all: assert (idx < length questions)%nat as Hlt by (by eapply lookup_lt_Some).
  all: destruct (decide (S idx < length questions)%nat), sref.
  all: unfold step;
    match goal with |- context [handle ?e ?W] =>
      eassert (handle e W = _) as ->; [exec_handle|] end;
    match goal with |- context [commit ?W] =>
      destruct (commit_frame W) as (Ho & Hix & _); unfold outputs in Ho;
      injection Ho as Hu Ha Hc; rewrite Hu, Ha, Hix; clear Hu Ha Hc Hix
    end.
  all: simpl; split_and!; try done; intros; try lia; by split.
Qed.

(** *** Which path uploads *)

(** The three ways a recording in progress can come to its stop event:
    "Next" and then the stop event; the recorder's own stop and its stop
    event; and the latter followed by "Next". *)
Lemma stop_paths w i size :
  reachable w → active w i →
  ∃ q mime,
    currentQuestion (st w) = Some q
    ∧ uploads (log (run w [EvClickNext; EvRecorderStopped i size]))
      = uploads (log w) ++ [submission q (answer_blob (with_data [] size) mime)]
    ∧ uploads (log (run w [EvRecorderEnded i; EvRecorderStopped i size]))
      = uploads (log w)
        ++ (if decide (0 < size)%nat
            then [submission q (answer_blob (with_data [] size) mime)] else [])
    ∧ uploads (log (run w [EvRecorderEnded i; EvRecorderStopped i size; EvClickNext]))
      = uploads (log w)
        ++ (if decide (0 < size)%nat
            then [submission q (answer_blob (with_data [] size) mime)] else []).
Proof.
  intros Hr (m & Hi & Hp).
  destruct (active_facts w i Hr) as
    (Hm & [q Hq] & Hrec & Hch & Hlock & Hufs & Hupl & Hana & Hd & Hafs & Hmp);
    [by exists m|].
  destruct (recording_natural w Hr i m Hi Hp) as (r0 & Hon & Hr0).
  clear Hr. exists q, (mimeType m). split; [done|].
  unfold currentQuestion, submission, answer_blob, with_data in *.
  destruct m as [? ? mime], r0 as [? ? ? ? ? ?]. open_hyps.
  destruct (decide (0 < size)%nat); split_and!.
  - exec. exec. by rewrite run_nil.
  - exec. exec. by rewrite run_nil.
  - exec. exec. exec. by rewrite run_nil.
  - exec. exec. by rewrite run_nil.
  - exec. exec. rewrite run_nil. simpl. by rewrite app_nil_r.
  - exec. exec. exec. rewrite run_nil. simpl. by rewrite app_nil_r.
Qed.

(** C2 (the code does otherwise): for a recording in progress on which
    both events occur.  When the forced advance comes first and the
    recorder's stop event after it, one upload results; when the
    recorder's own stop comes first and delivers data, one upload
    results, sent by [handleRecordingStop].  But when the recorder's own
    stop comes first without data, no upload results: the "Next" that
    follows installs its [resolve] in [onstop] of a recorder that has
    delivered its stop event already, so [handleNextQuestion] stays
    suspended at [await waitForStop] and never comes to the upload of the
    silent blob (lines 157-162); nothing is sent then or later, whatever
    happens. *)
Theorem C2_next_after_silent_stop_hangs w i size :
  reachable w → active w i →
  ∃ q mime,
    currentQuestion (st w) = Some q
    ∧ uploads (log (run w [EvClickNext; EvRecorderStopped i size]))
      = uploads (log w) ++ [submission q (answer_blob (with_data [] size) mime)]
    ∧ ((0 < size)%nat →
       uploads (log (run w [EvRecorderEnded i; EvRecorderStopped i size; EvClickNext]))
       = uploads (log w) ++ [submission q (answer_blob (with_data [] size) mime)])
    ∧ let w3 := run w [EvRecorderEnded i; EvRecorderStopped i 0; EvClickNext] in
      uploads (log w3) = uploads (log w)
      ∧ uploadFetches (rt w3) = ∅
      ∧ (∃ p r m, stopWaiters (rt w3) !! p = Some (r, i)
                  ∧ recorders (rt w3) !! i = Some m
                  ∧ onstop m = OnStop_resolve p ∧ phase m = Stopped)
      ∧ ∀ evs, outputs (run w3 evs) = outputs w.
Proof.
  intros Hr Ha.
  destruct (stop_paths w i size Hr Ha) as (q & mime & Hq & H1 & _ & H3).
  exists q, mime. split_and!; [done..| |].
  { intros Hs. by rewrite H3, decide_True. }
  clear H1 H3 Hq. destruct Ha as (m & Hi & Hp). cbv zeta.
  destruct (active_facts w i Hr) as
    (Hm & _ & Hrec & Hch & Hlock & Hufs & Hupl & Hana & Hd & Hafs & Hmp); [by exists m|].
  destruct (recording_natural w Hr i m Hi Hp) as (r0 & Hon & _).
  pose proof (λ m', delivered_stopped w i (stop_recorder m) m'
                      (alter stop_recorder i (recorders (rt w))) Hr Hm) as Hst.
  clear Hr. destruct m as [? ? ?], r0 as [? ? ? ? ? ?]. open_hyps.
  exec. exec. exec. rewrite run_nil. simpl.
  split_and!; [done..| |].
  - eexists _, _, _. rewrite lookup_insert_eq. split; [done|].
    rewrite lookup_alter_eq, lookup_alter_eq, lookup_insert_eq. simpl. by split_and!.
  - intros evs.
    match goal with |- outputs (run ?W _) = _ =>
      destruct (halted_forever W evs) as [-> _]; [|done] end.
    split_and!; try done. unfold all_stopped. simpl. fold stop_recorder.
    apply stopped_alter_stop, stopped_alter_onstop.
    apply Hst; [by rewrite lookup_alter_eq, Hi|done|].
    intros j Hj. by rewrite lookup_alter_ne.
Qed.

(** C5 (amended): when a recording in progress is ended by forced
    advance and no data was recorded, a submission with an empty blob of
    type audio/webm is sent for the question.  When the recorder stops on
    its own without data, [handleRecordingStop] sends nothing: with the
    lock down and the chunk buffer empty it returns the world as it is. *)
Theorem C5_empty_answer_on_forced_advance w i :
  reachable w → active w i →
  ∃ q,
    currentQuestion (st w) = Some q
    ∧ uploads (log (run w [EvClickNext; EvRecorderStopped i 0]))
      = uploads (log w)
        ++ [submission q {| blobParts := []; blobType := "audio/webm" |}]
    ∧ uploads (log (run w [EvRecorderEnded i; EvRecorderStopped i 0]))
      = uploads (log w)
    ∧ ∀ r w0, uploadLockedRef (refs w0) = false → audioChunksRef (refs w0) = [] →
        handleRecordingStop r w0 = w0.
Proof.
  intros Hr Ha.
  destruct (stop_paths w i 0 Hr Ha) as (q & mime & Hq & H1 & H2 & _).
  exists q. split_and!; [done|exact H1| |].
  - rewrite H2. simpl. apply app_nil_r.
  - intros r w0 Hl Hc. unfold handleRecordingStop. by rewrite Hl, Hc.
Qed.

(** *** How far the session has come *)

Lemma handle_effectDeps e w : effectDeps (rt (handle e w)) = effectDeps (rt w).
Proof.
  destruct e; simpl;
    unfold startCamera_resume, tick, stopRecording, clickNext, handleNextQuestion,
      recorder_stopped, handleRecordingStop, handleNextQuestion_resume,
      uploadAnswer_resume, analyzeInterview, analyzeInterview_resume, uploadAnswer;
    open_world w; fields; repeat case_match; simplify_eq; fields; done.
Qed.

(** A task that leaves the index, the submissions and the requests alone
    keeps the progress, if the recorders it leaves live were live and
    listen for the current question. *)
Lemma Progress_frame w w' :
  Progress w →
  currentQuestionIndex (st w') = currentQuestionIndex (st w) →
  uploads (log w') = uploads (log w) →
  uploadFetches (rt w') = uploadFetches (rt w) →
  analyzing (st w') = analyzing (st w) →
  (mediaPending (rt w') = true → mediaPending (rt w) = true) →
  (∀ i m', recorders (rt w') !! i = Some m' → phase m' ≠ Stopped →
     listener_current w' m'
     ∧ ∃ m, recorders (rt w) !! i = Some m ∧ phase m ≠ Stopped) →
  Progress w'.
Proof.
  intros [Hl Hf Hs Hr Ha Hm] Hidx Hup Hufs Hana Hmp Hrecs.
  assert (all_stopped w → all_stopped w') as Hst.
  { intros Hst i m' Hi. destruct (phase m') eqn:Hp; [| |done].
    all: destruct (Hrecs i m' Hi) as (_ & m & Hm0 & Hp0); [congruence|].
    all: by apply Hst in Hm0. }
  split; unfold answered in *; rewrite ?Hidx, ?Hup, ?Hufs, ?Hana; try done.
  - intros i m' Hi Hp. by destruct (Hrecs i m' Hi Hp).
  - destruct Hs as [?|(? & ? & ?)]; [by left|right]. by split_and!; [..|apply Hst].
  - intros H. apply Hm in Hmp; [|done]. done.
Qed.

Lemma live_alter_stop i j (recs : gmap nat MediaRecorder) m' :
  alter stop_recorder i recs !! j = Some m' → phase m' ≠ Stopped →
  ∃ m, recs !! j = Some m ∧ phase m ≠ Stopped ∧ onstop m' = onstop m.
Proof.
  intros [[-> (m & Hj & ->)]|[? Hj]]%lookup_alter_Some Hp; [|by eauto].
  exists m. rewrite stop_recorder_phase in Hp.
  split_and!; [done| |by destruct m as [[] ? ?]]. by destruct (phase m).
Qed.

Lemma live_alter_onstop l i j (recs : gmap nat MediaRecorder) m' :
  alter (λ m, {| phase := phase m; onstop := l; mimeType := mimeType m |}) i recs !! j
  = Some m' →
  ∃ m, recs !! j = Some m ∧ phase m' = phase m
       ∧ (onstop m' = l ∨ onstop m' = onstop m).
Proof.
  intros [[-> (m & Hj & ->)]|[? Hj]]%lookup_alter_Some; eauto 6.
Qed.

(** A listener stays current when the index stays and the promises it
    may wait on are those of before or of the current question. *)
Lemma listener_keep w w' m m' :
  listener_current w m →
  currentQuestionIndex (st w') = currentQuestionIndex (st w) →
  (∀ p r j, stopWaiters (rt w') !! p = Some (r, j) →
     stopWaiters (rt w) !! p = Some (r, j)
     ∨ currentQuestionIndex r = currentQuestionIndex (st w)) →
  onstop m' = onstop m
  ∨ (∃ p, onstop m' = OnStop_resolve p
          ∧ ∀ r j, stopWaiters (rt w') !! p = Some (r, j) →
                   currentQuestionIndex r = currentQuestionIndex (st w)) →
  listener_current w' m'.
Proof.
  unfold listener_current. intros Hc Hidx Hw [->|(p & -> & Hp)]; rewrite Hidx.
  - destruct (onstop m); [done|]. intros r j [?|?]%Hw; eauto.
  - done.
Qed.

Ltac handler_fields w :=
  unfold startCamera_resume, tick, stopRecording, clickNext, handleNextQuestion,
    analyzeInterview_resume;
  open_world w; fields; repeat case_match; simplify_eq; fields.

Lemma frame_tasks e w :
  (∀ i size, e ≠ EvRecorderStopped i size) → (∀ f res, e ≠ EvUploadResponse f res) →
  Progress w → Progress (handle e w).
Proof.
  intros He1 He2 HP.
  eapply Progress_frame; [exact HP|..].
  1-5: destruct e; simpl; try (by edestruct He1); try (by edestruct He2);
    handler_fields w; done.
  pose proof (pr_listener _ HP) as Hl. clear HP.
  intros i m'.
  destruct e; simpl; try (by edestruct He1); try (by edestruct He2).
  all: handler_fields w.
  all: intros Hi Hp.
  all: repeat match goal with
    | H : alter stop_recorder _ _ !! _ = Some _ |- _ =>
        apply live_alter_stop in H as (? & H & ? & ?); [|done]
    | H : alter (λ m, _) _ _ !! _ = Some _ |- _ =>
        apply live_alter_onstop in H as (? & H & ? & ?)
    end.
  all: (split; [|eexists; split; [eassumption|congruence]]).
  all: match goal with H : _ !! _ = Some ?m |- _ =>
         assert (phase m ≠ Stopped) as Hp0 by congruence;
         eapply (listener_keep _ _ _ _ (Hl _ _ H Hp0)) end; simpl; try done.
  all: try (intros; by left).
  all: try (intros p r j [[<- [= <- <-]]|[_ ?]]%lookup_insert_Some; by eauto).
  all: match goal with H : onstop _ = _ ∨ _ |- _ => destruct H as [H|H] end;
    [right; eexists; split; [first [eassumption|etrans; eassumption]|];
     intros r j; rewrite lookup_insert_eq; by intros [= <- <-]
    |left; congruence].
Qed.

(** With nothing recording and no request out, progress is a matter of
    the submissions alone. *)
Lemma Progress_settled w :
  all_stopped w → uploadFetches (rt w) = ∅ → analyzing (st w) = false →
  mediaPending (rt w) = false →
  answered (currentQuestionIndex (st w)) w →
  (currentQuestionIndex (st w) ≤ pred (length questions))%nat →
  Progress w.
Proof.
  intros Hst Hufs Hana Hmp Hans Hr. split; try done.
  - intros i m Hi Hp. by apply Hst in Hi.
  - intros f r. by rewrite Hufs, lookup_empty.
  - by left.
  - by rewrite Hana.
  - by rewrite Hmp.
Qed.

Lemma answers_snoc us qs u q :
  answers us qs → (∃ b, u = submission q b) → answers (us ++ [u]) (qs ++ [q]).
Proof. intros H1 H2. apply Forall2_app; [done|]. by constructor. Qed.

Lemma uploadAnswer_Progress r b w :
  all_stopped w → uploadFetches (rt w) = ∅ → analyzing (st w) = false →
  mediaPending (rt w) = false →
  answered (currentQuestionIndex (st w)) w →
  (currentQuestionIndex (st w) ≤ pred (length questions))%nat →
  currentQuestionIndex r = currentQuestionIndex (st w) →
  Progress (uploadAnswer r b w)
  ∧ deps (uploadAnswer r b w) = deps w.
Proof.
  intros Hst Hufs Hana Hmp Hans Hr Hidx. unfold uploadAnswer, currentQuestion.
  destruct (questions !! currentQuestionIndex r) as [q|] eqn:Hq.
  - apply lookup_lt_Some in Hq as Hlt. rewrite Hidx in Hq, Hlt.
    assert (answers (uploads (log w) ++
              [{| u_session := session_id sessionData; u_question := id q; u_audio := b |}])
              (take (S (currentQuestionIndex (st w))) questions)) as Hans'.
    { erewrite take_S_r by done. apply answers_snoc; [done|]. by exists b. }
    unfold answered, all_stopped in *. open_world w. simpl in *. subst.
    split; [|done]. split; unfold answered, all_stopped; fields; try done.
    + intros i m Hi Hp. by apply Hst in Hi.
    + intros f r0 [[<- <-]|[_ H]]%lookup_insert_Some; [done|].
      by rewrite lookup_empty in H.
    + by right.
  - split; [|by open_world w].
    unfold answered, all_stopped in *. open_world w. simpl in *. subst.
    by apply Progress_settled.
Qed.

Lemma recorder_stopped_Progress i size w :
  Inv w → Progress w →
  Progress (recorder_stopped i size w)
  ∧ deps (recorder_stopped i size w) = deps w.
Proof.
  intros HI HP. unfold recorder_stopped.
  destruct (recorders (rt w) !! i) as [m|] eqn:Hi; [|done].
  destruct (phase m) eqn:Hp; [done| |done].
  destruct (recorder_delivered i m size w HI Hi Hp) as (_ & (Hst & Hufs & Hana) & _ & Hmp).
  assert (phase m ≠ Stopped) as Hlive by congruence.
  pose proof (pr_listener _ HP _ _ Hi Hlive) as Hl.
  pose proof (pr_range _ HP) as Hr.
  assert (answered (currentQuestionIndex (st w)) w) as Hans.
  { destruct (pr_sent _ HP) as [?|(_ & _ & Hall)]; [done|]. by apply Hall in Hi. }
  clear HP HI Hi Hlive.
  set (w1 := ondataavailable size _) in *.
  assert (currentQuestionIndex (st w1) = currentQuestionIndex (st w)
          ∧ uploads (log w1) = uploads (log w)
          ∧ stopWaiters (rt w1) = stopWaiters (rt w) ∧ deps w1 = deps w)
    as (Hidx & Hups & Hws & Hd).
  { unfold w1, ondataavailable. open_world w. fields. by case_decide. }
  assert (answered (currentQuestionIndex (st w1)) w1) as Hans1.
  { unfold answered. by rewrite Hidx, Hups. }
  rewrite <- Hidx in Hr. rewrite <- Hd.
  unfold listener_current in Hl. rewrite <- Hidx, <- Hws in Hl. clearbody w1. clear dependent w.
  destruct (onstop m) as [r|p].
  - unfold handleRecordingStop. case_match.
    + split; [|by open_world w1]. unfold answered, all_stopped in *.
      open_world w1. simpl in *. subst. by apply Progress_settled.
    + case_match; [split; [by apply Progress_settled|done]|].
      by apply uploadAnswer_Progress.
  - unfold handleNextQuestion_resume.
    destruct (stopWaiters (rt w1) !! p) as [[r rc]|] eqn:Hw;
      [|split; [by apply Progress_settled|done]].
    specialize (Hl _ _ eq_refl).
    assert (∀ b, Progress (uploadAnswer r b (set_stopWaiters (delete p) w1))
                 ∧ deps (uploadAnswer r b (set_stopWaiters (delete p) w1)) = deps w1) as Hup.
    { intros b.
      destruct (uploadAnswer_Progress r b (set_stopWaiters (delete p) w1)) as [? ->];
        unfold answered, all_stopped in *; open_world w1; simpl in *; done. }
    case_match; apply Hup.
Qed.

Lemma uploadAnswer_resume_Progress f res w :
  Inv w → Progress w →
  Progress (uploadAnswer_resume f res w)
  ∧ (deps (uploadAnswer_resume f res w) = deps w
     ∨ answered (currentQuestionIndex (st (uploadAnswer_resume f res w)))
         (uploadAnswer_resume f res w)).
Proof.
  intros [Hd HI] HP. unfold uploadAnswer_resume.
  destruct (uploadFetches (rt w) !! f) as [r|] eqn:Hf; [|by split; [|left]].
  destruct (inv_upload _ HI _ _ Hf) as (Hupl & Hana & Hufs & Hst).
  assert (delete f (uploadFetches (rt w)) = ∅) as Hdel.
  { rewrite Hufs. apply delete_singleton_eq. }
  assert (mediaPending (rt w) = false) as Hmp.
  { destruct (mediaPending (rt w)) eqn:Hmp; [|done].
    destruct (inv_media _ HI Hmp) as (_ & Hnone & _). by rewrite Hnone in Hf. }
  destruct (pr_fetch _ HP _ _ Hf) as (Hidx & Hans & Hlt).
  clear HP HI Hf Hufs.
  assert (Z.of_nat (currentQuestionIndex r) < Z.of_nat (length questions) - 1
          ↔ (S (currentQuestionIndex (st w)) < length questions)%nat) as Hcmp.
  { rewrite Hidx. split; lia. }
  unfold analyzeInterview, answered, all_stopped in *.
  open_all. simpl in *. subst.
  destruct res; [case_bool_decide|..]; destruct sref; fields; rewrite ?Hdel.
  all: try (split; [|by left]).
  1,2: split; [|by right]; apply Progress_settled; unfold answered; try done; simpl; lia.
  all: split; unfold answered, all_stopped; fields; try done.
  all: try (intros i m0 Hi Hp; by apply Hst in Hi).
  all: try (intros ? ?; by rewrite lookup_empty).
  all: try (by right).
  all: try lia.
  all: intros _; assert (S idx = length questions) as Hlast by lia.
  all: split; [done|]; by rewrite <- Hlast.
Qed.

Lemma commit_Progress w :
  Progress w →
  deps w = effectDeps (rt w) ∨ answered (currentQuestionIndex (st w)) w →
  Progress (commit w).
Proof.
  intros HP Hfire. unfold commit. case_decide as Hd; [done|].
  destruct Hfire as [?|Hans]; [done|].
  assert (Progress (set_effectDeps (deps w) w)) as HP0.
  { eapply Progress_frame; [exact HP|by open_world w..|].
    intros i m' Hi Hp. split; [|by open_world w; eauto].
    assert (recorders (rt w) !! i = Some m') as Hi0 by by open_world w.
    eapply (listener_keep _ _ _ _ (pr_listener _ HP _ _ Hi0 Hp)); [by open_world w| |by left].
    intros p r j ?. left. by open_world w. }
  case_match; [|done].
  match goal with |- context [startRecording ?r ?w] =>
    destruct (startRecording_cases r w) as [->|[->|(mime & _ & _ & ->)]] end; [done| |].
  - eapply Progress_frame; [exact HP|by open_world w..|].
    intros i m' Hi Hp. split; [|by open_world w; eauto].
    assert (recorders (rt w) !! i = Some m') as Hi0 by by open_world w.
    eapply (listener_keep _ _ _ _ (pr_listener _ HP _ _ Hi0 Hp)); [by open_world w| |by left].
    intros p r j ?. left. by open_world w.
  - clear HP0. destruct HP as [Hl Hf _ Hr Ha Hm].
    unfold answered, all_stopped, listener_current in *. open_world w. simpl in *.
    split; unfold answered, all_stopped, listener_current; fields; try done.
    + intros i m [[<- <-]|[_ Hi]]%lookup_insert_Some Hp; [done|]. by apply (Hl i).
    + by left.
Qed.

Lemma Progress_handle e w :
  Inv w → Progress w →
  Progress (handle e w)
  ∧ (deps (handle e w) = deps w
     ∨ answered (currentQuestionIndex (st (handle e w))) (handle e w)).
Proof.
  intros HI HP.
  pose proof (λ H1 H2, frame_tasks e w H1 H2 HP) as Hframe.
  destruct e; simpl in *.
  6: { destruct (recorder_stopped_Progress i size w HI HP); by split; [|left]. }
  6: { by apply uploadAnswer_resume_Progress. }
  all: split; [by apply Hframe|]; clear Hframe.
  1,2: unfold startCamera_resume; destruct (mediaPending (rt w)) eqn:Hmp; [|by left];
    right; destruct (pr_media _ HP Hmp) as [Hu Hi];
    unfold answered; open_world w; simpl in *; subst; constructor.
  all: left; unfold tick, stopRecording, clickNext, handleNextQuestion, analyzeInterview_resume;
    open_world w; fields; repeat case_match; simplify_eq; by fields.
Qed.

Lemma Progress_mount : Progress mount.
Proof.
  split; unfold answered; simpl; try done; try lia.
  left. constructor.
Qed.

Lemma reachable_Progress w : reachable w → Progress w.
Proof.
  revert w. apply reachable_ind; [apply Progress_mount|].
  intros w e Hr HP. apply reachable_Inv in Hr as HI.
  destruct (Progress_handle e w HI HP) as [HP' Hd].
  apply commit_Progress; [done|].
  rewrite handle_effectDeps. destruct HI as [-> _].
  destruct Hd as [->|?]; [by left|by right].
Qed.

Lemma answers_length us qs : answers us qs → length us = length qs.
Proof. apply Forall2_length. Qed.

(** What was submitted, against the index. *)
Lemma answered_so_far w :
  reachable w →
  ∃ k, answered k w
       ∧ (k = currentQuestionIndex (st w) ∨ k = S (currentQuestionIndex (st w)))
       ∧ (k ≤ length questions)%nat.
Proof.
  intros HP%reachable_Progress. pose proof (pr_range _ HP) as Hr.
  destruct (pr_sent _ HP) as [Ha|(Ha & Hlt & _)].
  - exists (currentQuestionIndex (st w)). split_and!; [done|by left|lia].
  - exists (S (currentQuestionIndex (st w))). split_and!; [done|by right|lia].
Qed.

(** The submissions follow the questions: at every moment the requests
    sent to [/api/upload-answer] are, in order, one for each of the first
    [n] questions of the list, each for this session's id, and [n] is the
    index of the current question or, once the current question has been
    submitted, one more.  No question is skipped, none is submitted
    twice, and nothing is submitted ahead of the current question. *)
Theorem submissions_follow_questions w :
  reachable w →
  let n := length (uploads (log w)) in
  answers (uploads (log w)) (take n questions)
  ∧ (n = currentQuestionIndex (st w) ∨ n = S (currentQuestionIndex (st w)))
  ∧ (n ≤ length questions)%nat.
Proof.
  intros (k & Ha & Hk & Hle)%answered_so_far. cbv zeta. unfold answered in Ha.
  rewrite (answers_length _ _ Ha), length_take, Nat.min_l by lia. done.
Qed.

(** The analysis is requested, and [onComplete] called, only on the last
    question and only after every question of the list has had its one
    submission, in the order of the list. *)
Theorem analysis_after_every_answer w :
  reachable w →
  analyzeCalls (log w) ≠ [] ∨ (0 < completions (log w))%nat →
  answers (uploads (log w)) questions
  ∧ S (currentQuestionIndex (st w)) = length questions.
Proof.
  intros Hr Hdone. pose proof (reachable_Inv w Hr) as [_ HI].
  apply reachable_Progress in Hr as HP.
  destruct (analyzing (st w)) eqn:Hana.
  - destruct (pr_analysis _ HP Hana) as [Hlast Hans]. unfold answered in Hans.
    by rewrite firstn_all in Hans.
  - destruct (inv_before _ HI Hana) as (Hacs & Hcomp & _).
    rewrite Hacs, Hcomp in Hdone. destruct Hdone; [done|lia].
Qed.

(** The analysis is requested at most once, for this session's id, and
    [onComplete] is called at most once and never before it. *)
Theorem analysis_at_most_once w :
  reachable w →
  (analyzeCalls (log w) = [] ∧ completions (log w) = 0%nat)
  ∨ (analyzeCalls (log w) = [session_id sessionData]
     ∧ (completions (log w) ≤ 1)%nat).
Proof.
  intros [_ HI]%reachable_Inv. destruct (analyzing (st w)) eqn:Hana.
  - destruct (inv_after _ HI Hana) as (Hacs & _ & _ & [(f & _ & ->)|[_ ->]]);
      right; split; (done || lia).
  - destruct (inv_before _ HI Hana) as (Hacs & Hcomp & _). by left.
Qed.

Lemma filter_NoDup_fmap_length {A B} `{EqDecision B} (f : A → B) (b : B) (l : list A) :
  NoDup (f <$> l) → (length (filter (λ x, f x = b) l) ≤ 1)%nat.
Proof.
  induction l as [|a l IH]; simpl; [lia|].
  intros [Hin Hnd]%NoDup_cons. rewrite filter_cons. case_decide as Ha; [|by apply IH].
  simpl. assert (filter (λ x, f x = b) l = []) as ->; [|simpl; lia].
  clear IH Hnd. induction l as [|x l IH]; [done|].
  rewrite filter_cons, decide_False.
  - apply IH. intros ?. apply Hin. rewrite fmap_cons. apply elem_of_cons. by right.
  - intros Hfx. apply Hin. rewrite fmap_cons, Ha, <- Hfx. apply elem_of_cons. by left.
Qed.

Lemma answers_questions us qs : answers us qs → u_question <$> us = id <$> qs.
Proof.
  induction 1 as [|u q us qs [b ->] _ IH]; [done|]. rewrite !fmap_cons. by rewrite IH.
Qed.

(** When the questions have different ids, at most one submission is ever
    sent for a question id. *)
Theorem one_submission_per_id w qid :
  reachable w → NoDup (id <$> questions) →
  (length (uploads_for qid w) ≤ 1)%nat.
Proof.
  intros (k & Ha & _)%answered_so_far Hnd.
  unfold uploads_for. apply filter_NoDup_fmap_length.
  rewrite (answers_questions _ _ Ha), fmap_take.
  eapply sublist_NoDup; [exact Hnd|apply sublist_take].
Qed.

(** *** The page *)

Lemma reachable_current w :
  reachable w → questions ≠ [] →
  (currentQuestionIndex (st w) < length questions)%nat.
Proof.
  intros HP%reachable_Progress Hq. pose proof (pr_range _ HP).
  destruct questions; [done|]. simpl in *. lia.
Qed.

(** With a question in the list, the page always has a current question
    to show: its text is defined, the number in the header is between 1
    and the number of questions, and the grid shows the questions before
    the current one as completed, the current one as active and the
    others plain. *)
Theorem page_shows_the_current_question w :
  reachable w → questions ≠ [] →
  is_Some (questionText (st w))
  ∧ (∃ k, (1 ≤ k ≤ length questions)%nat
          ∧ questionNumber (st w)
            = "Question " +:+ String_of_number (Z.of_nat k)
              +:+ " of " +:+ String_of_number (Z.of_nat (length questions)))
  ∧ (λ box, box.1.2) <$> questionGrid (st w)
    = replicate (currentQuestionIndex (st w)) "question-indicator completed"
      ++ "question-indicator active"
         :: replicate (length questions - S (currentQuestionIndex (st w)))
              "question-indicator ".
Proof.
  intros Hr Hq. pose proof (reachable_current w Hr Hq) as Hlt. split_and!.
  - unfold questionText, currentQuestion. apply fmap_is_Some, lookup_lt_is_Some_2, Hlt.
  - exists (S (currentQuestionIndex (st w))). split; [lia|].
    unfold questionNumber. by rewrite Nat2Z.inj_succ.
  - unfold questionGrid, indicatorClass. apply list_eq. intros i.
    rewrite list_lookup_fmap, list_lookup_imap.
    destruct (decide (i < currentQuestionIndex (st w))%nat) as [Hi|Hi].
    { rewrite lookup_app_l by (rewrite length_replicate; lia).
      rewrite lookup_replicate_2 by done.
      destruct (lookup_lt_is_Some_2 questions i) as [q ->]; [lia|].
      reflexivity. }
    rewrite lookup_app_r by (rewrite length_replicate; lia). rewrite length_replicate.
    destruct (decide (i = currentQuestionIndex (st w))) as [->|Hne].
    { rewrite Nat.sub_diag. destruct (lookup_lt_is_Some_2 questions _ Hlt) as [q ->].
      reflexivity. }
    destruct (i - currentQuestionIndex (st w))%nat as [|d] eqn:Hd; [lia|].
    rewrite lookup_cons.
    destruct (questions !! i) as [q|] eqn:Hqi; cbn [fmap option_fmap option_map fst snd].
    + apply lookup_lt_Some in Hqi. by rewrite lookup_replicate_2 by lia.
    + apply lookup_ge_None in Hqi. symmetry. apply lookup_replicate_None. lia.
Qed.

(** "Next" is disabled exactly while an upload is out or after the
    analysis has begun, and a click on it then changes nothing. *)
Theorem next_disabled_while_busy w :
  reachable w →
  (nextDisabled (st w) = true
   ↔ uploadFetches (rt w) ≠ ∅ ∨ analyzing (st w) = true)
  ∧ (nextDisabled (st w) = true → step w EvClickNext = w).
Proof.
  intros [Hd HI]%reachable_Inv. unfold nextDisabled. split; [split|].
  - intros [Hu|Ha]%orb_prop; [|by right].
    destruct (analyzing (st w)) eqn:Hana; [by right|left].
    destruct (inv_before _ HI Hana) as (_ & _ & Hafs).
    by destruct (inv_uploading _ HI Hu).
  - intros [Hne| ->]; [|apply orb_true_r].
    apply map_choose in Hne as (f & r & Hf).
    by destruct (inv_upload _ HI _ _ Hf) as (-> & _).
  - intros Hdis. unfold step. simpl. unfold clickNext. rewrite Hdis.
    by apply commit_settled.
Qed.

Lemma handle_index e w :
  currentQuestionIndex (st (handle e w)) = currentQuestionIndex (st w)
  ∨ (currentQuestionIndex (st (handle e w)) = S (currentQuestionIndex (st w))
     ∧ ∃ f r, e = EvUploadResponse f ResponseOk
              ∧ uploadFetches (rt w) !! f = Some r
              ∧ (S (currentQuestionIndex r) < length questions)%nat).
Proof.
  destruct e; simpl.
  7: { unfold uploadAnswer_resume, analyzeInterview.
       destruct (uploadFetches (rt w) !! f) as [r|] eqn:Hf; [|by left].
       destruct res; [case_bool_decide|..]; [right|left..].
       - split; [by open_world w|]. exists f, r. split_and!; [done..|lia].
       - open_world w. by destruct sref.
       - by open_world w.
       - by open_world w. }
  all: left;
    unfold startCamera_resume, tick, stopRecording, clickNext, handleNextQuestion,
      recorder_stopped, handleRecordingStop, handleNextQuestion_resume,
      analyzeInterview_resume, uploadAnswer;
    open_world w; fields; repeat case_match; simplify_eq; by fields.
Qed.

Lemma step_index e w :
  currentQuestionIndex (st (step w e)) = currentQuestionIndex (st w)
  ∨ (currentQuestionIndex (st (step w e)) = S (currentQuestionIndex (st w))
     ∧ ∃ f r, e = EvUploadResponse f ResponseOk
              ∧ uploadFetches (rt w) !! f = Some r
              ∧ (S (currentQuestionIndex r) < length questions)%nat).
Proof.
  unfold step. destruct (commit_frame (handle e w)) as (_ & -> & _). apply handle_index.
Qed.

(** The index only moves forward, one question at a time, and only by
    the task in which an upload is accepted whose render was not on the
    last question; no other task moves it, and no run of tasks takes it
    back. *)
Theorem index_moves_forward w e :
  (currentQuestionIndex (st (step w e)) = currentQuestionIndex (st w)
   ∨ (currentQuestionIndex (st (step w e)) = S (currentQuestionIndex (st w))
      ∧ ∃ f r, e = EvUploadResponse f ResponseOk
               ∧ uploadFetches (rt w) !! f = Some r
               ∧ (S (currentQuestionIndex r) < length questions)%nat))
  ∧ ∀ evs, (currentQuestionIndex (st w) ≤ currentQuestionIndex (st (run w evs)))%nat.
Proof.
  split; [apply step_index|]. intros evs. revert w.
  induction evs as [|e' evs IH]; intros w; [done|].
  rewrite run_cons. specialize (IH (step w e')).
  destruct (step_index e' w) as [Heq|[Heq _]]; lia.
Qed.

(** *** The clock *)

Lemma string_app_cons a (s t : string) : String a s +:+ t = String a (s +:+ t).
Proof. reflexivity. Qed.

Lemma string_app_length (s t : string) :
  String.length (s +:+ t) = (String.length s + String.length t)%nat.
Proof.
  induction s as [|a s IH]; [done|]. rewrite string_app_cons. simpl. by rewrite IH.
Qed.

(** Strings that end in tails of the same length are equal part by part. *)
Lemma string_app_inj_suffix (s1 s2 t1 t2 : string) :
  String.length t1 = String.length t2 → s1 +:+ t1 = s2 +:+ t2 → s1 = s2 ∧ t1 = t2.
Proof.
  intros Hl. revert s2. induction s1 as [|a s1 IH]; intros [|b s2] H.
  - done.
  - change (t1 = String b (s2 +:+ t2)) in H. rewrite H in Hl. simpl in Hl.
    rewrite string_app_length in Hl. lia.
  - change (String a (s1 +:+ t1) = t2) in H. rewrite <- H in Hl. simpl in Hl.
    rewrite string_app_length in Hl. lia.
  - rewrite !string_app_cons in H. injection H as -> H.
    by destruct (IH _ H) as [-> ->].
Qed.

(** Below 60, padding to two places writes the tens and the units. *)
Lemma pad_two_digits r :
  0 ≤ r < 60 →
  padStart 2 "0" (String_of_number r)
  = String_of_number (r / 10) +:+ String_of_number (r mod 10).
Proof.
  intros Hr. assert (∃ n, (n < 60)%nat ∧ r = Z.of_nat n) as (n & Hn & ->).
  { exists (Z.to_nat r). lia. }
  do 60 (destruct n as [|n]; [vm_compute; reflexivity|]). lia.
Qed.

Lemma digit_length d : 0 ≤ d < 10 → String.length (String_of_number d) = 1%nat.
Proof.
  intros Hd. assert (∃ n, (n < 10)%nat ∧ d = Z.of_nat n) as (n & Hn & ->).
  { exists (Z.to_nat d). lia. }
  do 10 (destruct n as [|n]; [vm_compute; reflexivity|]). lia.
Qed.

Lemma formatTime_nonneg seconds :
  0 ≤ seconds →
  formatTime seconds
  = String_of_number (seconds / 60) +:+ ":"
    +:+ String_of_number (seconds mod 60 / 10)
    +:+ String_of_number (seconds mod 60 mod 10).
Proof.
  intros Hs. unfold formatTime. cbv zeta.
  rewrite Z.rem_mod_nonneg by lia.
  rewrite pad_two_digits; [done|]. apply Z.mod_pos_bound. lia.
Qed.

(** [formatTime] writes a time that is not negative as the minutes, a
    colon, and the seconds of the minute on exactly two places, the tens
    and the units; seconds below ten are shown with a leading zero. *)
Theorem formatTime_minutes_and_seconds seconds :
  0 ≤ seconds ≤ MAX_SAFE_INTEGER →
  formatTime seconds
  = String_of_number (seconds / 60) +:+ ":"
    +:+ String_of_number (seconds mod 60 / 10)
    +:+ String_of_number (seconds mod 60 mod 10)
  ∧ String.length (String_of_number (seconds mod 60 / 10)) = 1%nat
  ∧ String.length (String_of_number (seconds mod 60 mod 10)) = 1%nat.
Proof.
  intros [Hs _]. split; [by apply formatTime_nonneg|].
  pose proof (Z.mod_pos_bound seconds 60 ltac:(lia)).
  split; apply digit_length; [|apply Z.mod_pos_bound; lia].
  split; [apply Z.div_pos|apply Z.div_lt_upper_bound]; lia.
Qed.

(** Different times read differently: on times that are not negative
    [formatTime] is injective. *)
Theorem formatTime_inj a b :
  0 ≤ a ≤ MAX_SAFE_INTEGER → 0 ≤ b ≤ MAX_SAFE_INTEGER →
  formatTime a = formatTime b → a = b.
Proof.
  intros [Ha _] [Hb _]. rewrite !formatTime_nonneg by done.
  pose proof (Z.mod_pos_bound a 60 ltac:(lia)) as Hra.
  pose proof (Z.mod_pos_bound b 60 ltac:(lia)) as Hrb.
  pose proof (Z.mod_pos_bound (a mod 60) 10 ltac:(lia)) as Hua.
  pose proof (Z.mod_pos_bound (b mod 60) 10 ltac:(lia)) as Hub.
  assert (0 ≤ a mod 60 / 10 < 10) as Hta
    by (split; [apply Z.div_pos|apply Z.div_lt_upper_bound]; lia).
  assert (0 ≤ b mod 60 / 10 < 10) as Htb
    by (split; [apply Z.div_pos|apply Z.div_lt_upper_bound]; lia).
  intros H. apply string_app_inj_suffix in H as [Hm H].
  2:{ by rewrite !string_app_length, !digit_length. }
  apply (inj (String.append ":")) in H.
  apply string_app_inj_suffix in H as [Ht Hu].
  2:{ by rewrite !digit_length. }
  apply (inj pretty) in Hm, Ht, Hu.
  rewrite (Z.div_mod a 60), (Z.div_mod b 60) by lia.
  rewrite (Z.div_mod (a mod 60) 10), (Z.div_mod (b mod 60) 10) by lia.
  congruence.
Qed.

Ltac all_handlers :=
  unfold startCamera_resume, tick, stopRecording, clickNext, handleNextQuestion,
    recorder_stopped, handleRecordingStop, handleNextQuestion_resume,
    uploadAnswer_resume, analyzeInterview, analyzeInterview_resume, uploadAnswer.

Lemma questionTime_range B q :
  90 ≤ B →
  (∀ q0 z, q = Some q0 → estimated_seconds q0 = Some z → 0 ≤ z ≤ B) →
  0 ≤ questionTime q ≤ B.
Proof.
  intros HB Hq. unfold questionTime. destruct q as [q0|]; simpl; [|lia].
  destruct (estimated_seconds q0) as [z|] eqn:Hz; [|lia].
  case_decide; [lia|]. by apply (Hq q0).
Qed.

Lemma handle_timeLeft e w :
  timeLeft (st (handle e w)) = timeLeft (st w)
  ∨ timeLeft (st (handle e w)) = 0
  ∨ (1 < timeLeft (st w) ∧ timeLeft (st (handle e w)) = timeLeft (st w) - 1).
Proof.
  destruct e; simpl.
  3: { unfold tick, stopRecording. destruct (intervals (rt w) !! t); [|by left].
       case_bool_decide; [right; left|right; right; split; [lia|]];
         open_world w; fields; repeat case_match; by fields. }
  all: left; all_handlers; open_world w; fields; repeat case_match; simplify_eq;
    by fields.
Qed.

Lemma timeLeft_range w B :
  reachable w → 90 ≤ B →
  (∀ q z, q ∈ questions → estimated_seconds q = Some z → 0 ≤ z ≤ B) →
  0 ≤ timeLeft (st w) ≤ B.
Proof.
  intros Hr HB Hq. revert w Hr.
  apply (reachable_ind (λ w, 0 ≤ timeLeft (st w) ≤ B)); [simpl; lia|].
  intros w e _ IH.
  assert (0 ≤ timeLeft (st (handle e w)) ≤ B) as Hh.
  { destruct (handle_timeLeft e w) as [->|[->|[? ->]]]; lia. }
  unfold step, commit. case_decide; [done|]. case_match; [|done].
  match goal with |- context [startRecording ?r ?w] =>
    destruct (startRecording_cases r w) as [->|[->|(mime & _ & _ & ->)]] end;
    [done..|].
  simpl. apply questionTime_range; [done|].
  intros q0 z Hq0 Hz. apply (Hq q0 z); [|done].
  unfold currentQuestion in Hq0. by eapply list_elem_of_lookup_2.
Qed.

(** The clock stays in range, for durations that are whole numbers of
    seconds: when every duration the questions give is a whole number
    from 0 to [B], [B] being no less than the default of 90 and no more
    than [MAX_SAFE_INTEGER], the time left is a whole number between 0
    and [B] at every moment, and the page shows it as minutes, a colon
    and two digits of seconds. *)
Theorem clock_in_range w B :
  reachable w → 90 ≤ B ≤ MAX_SAFE_INTEGER →
  (∀ q z, q ∈ questions → estimated_seconds q = Some z → 0 ≤ z ≤ B) →
  0 ≤ timeLeft (st w) ≤ MAX_SAFE_INTEGER
  ∧ timeLeft (st w) ≤ B
  ∧ timer (st w)
    = String_of_number (timeLeft (st w) / 60) +:+ ":"
      +:+ String_of_number (timeLeft (st w) mod 60 / 10)
      +:+ String_of_number (timeLeft (st w) mod 60 mod 10).
Proof.
  intros Hr [HB Hsafe] Hq. pose proof (timeLeft_range w B Hr HB Hq) as Ht.
  split_and!; [lia..|]. apply formatTime_nonneg. lia.
Qed.

(** *** The blobs *)

Lemma mime_or_default_nonempty m : mime_or_default m ≠ ""%string.
Proof. unfold mime_or_default. destruct m as [s|]; [case_decide|]; done. Qed.

Lemma blobs_ok_upload r b w :
  blobs_ok w → well_formed b → blobs_ok (uploadAnswer r b w).
Proof.
  intros [Hc Hu] Hb. unfold uploadAnswer. destruct (currentQuestion r); [|by open_world w].
  open_world w. split; [done|]. simpl in *. apply Forall_app. split; [done|].
  by apply Forall_singleton.
Qed.

Lemma blobs_ok_chunks w :
  blobs_ok w → audioChunksRef (refs w) ≠ [] → ∀ m,
  well_formed {| blobParts := audioChunksRef (refs w); blobType := mime_or_default m |}.
Proof.
  intros [Hc _] Hne m. split_and!; [done|apply mime_or_default_nonempty|done].
Qed.

Lemma well_formed_silent : well_formed {| blobParts := []; blobType := "audio/webm" |}.
Proof. by split_and!. Qed.

Lemma blobs_ok_handle e w : blobs_ok w → blobs_ok (handle e w).
Proof.
  intros Hb.
  assert (∀ w', audioChunksRef (refs w') = audioChunksRef (refs w) →
                uploads (log w') = uploads (log w) → blobs_ok w') as Hsame.
  { intros w' Hc Hu. unfold blobs_ok. by rewrite Hc, Hu. }
  destruct e; simpl.
  6: { unfold recorder_stopped. destruct (recorders (rt w) !! i) as [m|]; [|done].
       destruct (phase m); [done| |done].
       match goal with |- context [ondataavailable size ?W] =>
         assert (blobs_ok (ondataavailable size W)) as Hb1 end.
       { unfold ondataavailable. destruct Hb as [Hc Hu]. open_world w. fields.
         case_decide; (split; [|done]); simpl in *; [|done].
         apply Forall_app. split; [done|]. by apply Forall_singleton. }
       match goal with |- context [ondataavailable size ?W] =>
         generalize dependent (ondataavailable size W) end.
       intros w1 Hb1. destruct (onstop m) as [r|p].
       - unfold handleRecordingStop. case_match.
         { destruct Hb1. by open_world w1. }
         destruct (audioChunksRef (refs w1)) as [|c l] eqn:Hch; [done|].
         apply blobs_ok_upload; [done|]. rewrite <- Hch.
         apply blobs_ok_chunks; [done|by rewrite Hch].
       - unfold handleNextQuestion_resume.
         destruct (stopWaiters (rt w1) !! p) as [[r rc]|]; [|done].
         assert (blobs_ok (set_stopWaiters (delete p) w1)) as Hb2.
         { destruct Hb1. by open_world w1. }
         destruct (audioChunksRef (refs (set_stopWaiters (delete p) w1))) as [|c l] eqn:Hch.
         + apply blobs_ok_upload; [done|apply well_formed_silent].
         + apply blobs_ok_upload; [done|]. rewrite <- Hch.
           apply blobs_ok_chunks; [done|by rewrite Hch]. }
  all: apply Hsame; all_handlers; open_world w; fields; repeat case_match;
    simplify_eq; by fields.
Qed.

(** Every blob the component uploads is well formed: it holds only
    fragments that carry data, it has a media type that is not empty,
    and the blob without fragments is of type audio/webm. *)
Theorem uploads_well_formed w :
  reachable w → Forall (λ u, well_formed (u_audio u)) (uploads (log w)).
Proof.
  intros Hr. cut (blobs_ok w); [by intros [_ ?]|]. revert w Hr.
  apply reachable_ind; [by split|].
  intros w e _ Hb%(blobs_ok_handle e).
  unfold step, commit. case_decide; [done|].
  assert (blobs_ok (set_effectDeps (deps (handle e w)) (handle e w))) as Hb0.
  { destruct Hb. by destruct (handle e w) as [? ? [] ?]. }
  case_match; [|done].
  match goal with |- context [startRecording ?r ?w] =>
    destruct (startRecording_cases r w) as [->|[->|(mime & _ & _ & ->)]] end; [done|..].
  - destruct Hb0 as [_ Hu]. split; [done|]. by destruct (handle e w) as [? ? [] []].
  - destruct Hb0 as [_ Hu]. split; [done|]. by destruct (handle e w) as [? ? [] []].
Qed.

(** *** The timers and the unmount *)

Lemma timers_kept_handle e w :
  timers_kept w →
  timers_kept (handle e w)
  ∧ (deps (handle e w) = deps w
     ∨ ∀ t r, intervals (rt (handle e w)) !! t = Some r →
         (currentQuestionIndex r < currentQuestionIndex (st (handle e w)))%nat).
Proof.
  intros HK. pose proof HK as [Hm Hk].
  destruct e; simpl.
  - unfold startCamera_resume. destruct (mediaPending (rt w)) eqn:Hmp; [|split; [done|by left]].
    specialize (Hm eq_refl). unfold timers_kept. open_world w. simpl in *. subst.
    split; [done|]. right. intros t r. by rewrite lookup_empty.
  - unfold startCamera_resume. destruct (mediaPending (rt w)) eqn:Hmp; [|split; [done|by left]].
    specialize (Hm eq_refl). unfold timers_kept. clear HK.
    open_world w. simpl in *. subst. split; [done|by left].
  - clear HK. unfold timers_kept, tick, stopRecording. open_world w. fields.
    repeat case_match; simplify_eq; fields; (split; [|by left]); try done.
    split.
    { intros Hp. rewrite (Hm Hp). apply delete_empty. }
    intros t0 r0 [Hne Ht0]%lookup_delete_Some. destruct (Hk _ _ Ht0) as [? Ht].
    split; [done|]. intros Heq. specialize (Ht Heq). congruence.
  - clear HK. unfold timers_kept, clickNext, handleNextQuestion. open_world w. fields.
    repeat case_match; simplify_eq; fields; (split; [done|by left]).
  - clear HK. unfold timers_kept. open_world w. fields. split; [done|by left].
  - clear HK. unfold timers_kept. all_handlers. open_world w. fields.
    repeat case_match; simplify_eq; fields; (split; [done|by left]).
  - clear HK. unfold timers_kept, uploadAnswer_resume, analyzeInterview. open_world w. fields.
    destruct (ufs !! f) as [r|]; [|split; [done|by left]].
    destruct res; [case_bool_decide|..]; destruct sref; fields;
      try (split; [done|by left]).
    all: split; [|right; intros t [] Ht; destruct (Hk _ _ Ht); simpl in *; lia].
    all: split; [done|]; intros t [] Ht; destruct (Hk _ _ Ht); simpl in *;
      split; [lia|]; intros; lia.
  - clear HK. unfold timers_kept, analyzeInterview_resume. open_world w. fields.
    repeat case_match; simplify_eq; fields; (split; [done|by left]).
Qed.

Lemma reachable_timers_kept w : reachable w → timers_kept w.
Proof.
  revert w. apply reachable_ind.
  { split; [done|]. intros t r. simpl. by rewrite lookup_empty. }
  intros w e HI%reachable_Inv Hk.
  destruct (handle_inv e w HI) as [HI0 _]. pose proof (inv_media _ HI0) as Hmedia.
  destruct HI as [Hd _]. clear HI0.
  destruct (timers_kept_handle e w Hk) as [Hk' Hfire].
  pose proof (handle_effectDeps e w) as Hed. rewrite Hd in Hed.
  unfold step, commit. case_decide as Hdec; [done|].
  destruct Hfire as [Hsame|Hlt]; [congruence|].
  assert (timers_kept (set_effectDeps (deps (handle e w)) (handle e w))) as Hk0.
  { destruct Hk'. by destruct (handle e w) as [? ? [] ?]. }
  case_match; [|done].
  match goal with |- context [startRecording ?r ?w] =>
    destruct (startRecording_cases r w) as [->|[->|(mime & Hs & _ & ->)]] end; [done|..].
  - destruct Hk0. by destruct (handle e w) as [? ? [] []].
  - clear Hk0. destruct Hk' as [Hm' Hk']. unfold timers_kept.
    destruct (handle e w) as [[] [] [] []]. simpl in *. split.
    + intros Hp. destruct (Hmedia Hp) as (_ & _ & _ & Hnone).
      rewrite Hnone in Hs. by destruct Hs.
    + intros t r [[<- <-]|[Hne Ht]]%lookup_insert_Some; [done|].
      specialize (Hlt _ _ Ht). split; [lia|]. intros; lia.
Qed.

(** The unmount stops the tracks of the camera and clears the timer of
    the current question.  It leaves the recorders as they are, so a
    recording that is in progress goes on, it sends nothing, and the
    timers that are still armed after it are timers of earlier
    questions. *)
Theorem unmount_leaves_earlier_timers w :
  reachable w →
  (∀ s, streamRef (refs (unmount w)) = Some s → tracksStopped s = true)
  ∧ recorders (rt (unmount w)) = recorders (rt w)
  ∧ log (unmount w) = log w
  ∧ (∀ t, timerRef (refs w) = Some t → intervals (rt (unmount w)) !! t = None)
  ∧ ∀ t r, intervals (rt (unmount w)) !! t = Some r →
      (currentQuestionIndex r < currentQuestionIndex (st w))%nat.
Proof.
  intros [_ Hk]%reachable_timers_kept. unfold unmount, stopCamera.
  open_world w. simpl in *. destruct sref as [s|], tref as [t|]; simpl.
  all: split_and!; try done.
  all: try (by intros ? [= <-]).
  all: try (intros ? [= <-]; apply lookup_delete_eq).
  - intros t0 r [Hne Ht]%lookup_delete_Some. destruct (Hk _ _ Ht) as [Hle Heq].
    destruct (decide (currentQuestionIndex r = idx)) as [He|He]; [|lia].
    specialize (Heq He). congruence.
  - intros t0 r Ht. destruct (Hk _ _ Ht) as [Hle Heq].
    destruct (decide (currentQuestionIndex r = idx)) as [He|He]; [|lia].
    by specialize (Heq He).
  - intros t0 r [Hne Ht]%lookup_delete_Some. destruct (Hk _ _ Ht) as [Hle Heq].
    destruct (decide (currentQuestionIndex r = idx)) as [He|He]; [|lia].
    specialize (Heq He). congruence.
  - intros t0 r Ht. destruct (Hk _ _ Ht) as [Hle Heq].
    destruct (decide (currentQuestionIndex r = idx)) as [He|He]; [|lia].
    by specialize (Heq He).
Qed.

(** *** Sessions that cannot record *)

(** Until the camera has answered, the component is as it was mounted,
    but for the upload lock, which a click on "Next" sets. *)
Lemma pending_pristine w :
  reachable w → mediaPending (rt w) = true →
  ∃ b, w = set_uploadLockedRef b mount.
Proof.
  revert w. apply (reachable_ind (λ w, mediaPending (rt w) = true →
                                        ∃ b, w = set_uploadLockedRef b mount)).
  { intros _. by exists false. }
  intros w e _ IH.
  assert (mediaPending (rt (handle e w)) = true →
          ∃ b, handle e w = set_uploadLockedRef b mount) as Hh.
  { assert (mediaPending (rt (handle e w)) = true → mediaPending (rt w) = true) as Hp.
    { destruct e; simpl; all_handlers; open_world w; fields;
        repeat case_match; simplify_eq; by fields. }
    intros Hm. destruct (IH (Hp Hm)) as [b ->]. clear IH Hp.
    destruct e; simpl in *; try discriminate.
    - by exists b.
    - by exists true.
    - exists b. unfold recorder_stop, set_recorders, with_rt. simpl.
      by rewrite (alter_empty_eq stop_recorder i ∅).
    - by exists b.
    - by exists b.
    - by exists b. }
  intros Hm. unfold step, commit in *.
  case_decide as Hd; [by apply Hh|]. exfalso.
  destruct (cameraReady _ && _) eqn:Hc.
  - match type of Hm with context [startRecording ?r ?w] =>
      destruct (startRecording_cases r w) as [Heq|[Heq|(mime & _ & _ & Heq)]];
      rewrite Heq in Hm end.
    all: assert (mediaPending (rt (handle e w)) = true) as Hm'
      by (by destruct (handle e w) as [? ? [] ?]).
    all: destruct (Hh Hm') as [b Hw]; rewrite Hw in Hd; by apply Hd.
  - assert (mediaPending (rt (handle e w)) = true) as Hm'
      by (by destruct (handle e w) as [? ? [] ?]).
    destruct (Hh Hm') as [b Hw]. rewrite Hw in Hd. by apply Hd.
Qed.

Lemma idle_handle e w :
  idle w → idle (handle e w) ∧ log (handle e w) = log w ∧ st (handle e w) = st w.
Proof.
  intros (Hrecs & Hm & Hints & Hufs & Hafs & Hmp & Hd). unfold idle.
  destruct e; simpl; all_handlers; open_world w; simpl in *; subst; fields;
    rewrite ?lookup_empty; repeat case_match; simplify_eq; fields;
    by split_and!.
Qed.

Lemma idle_step e w :
  idle w → idle (step w e) ∧ log (step w e) = log w ∧ st (step w e) = st w.
Proof.
  intros Hi. destruct (idle_handle e w Hi) as (Hi' & Hl & Hs).
  unfold step. rewrite commit_settled; [done|]. by destruct Hi' as (_ & _ & _ & _ & _ & _ & ?).
Qed.

(** Once idle, the component stays as it is, whatever happens. *)
Lemma idle_forever w evs :
  idle w →
  log (run w evs) = log w ∧ st (run w evs) = st w ∧ recorders (rt (run w evs)) = ∅.
Proof.
  revert w. induction evs as [|e evs IH]; intros w Hi.
  { split_and!; [done..|]. by destruct Hi. }
  destruct (idle_step e w Hi) as (Hi' & <- & <-). rewrite run_cons. by apply IH.
Qed.

(** If the user refuses the camera, the component says so once and that
    is all it ever does: whatever happens afterwards, nothing is
    recorded, uploaded or analysed, [onComplete] is not called, and the
    page stays on the first question. *)
Theorem camera_refused w evs :
  reachable w → mediaPending (rt w) = true →
  let w' := run (step w EvMediaDenied) evs in
  log w' = {| uploads := []; analyzeCalls := []; completions := 0;
              alerts := ["Please allow camera and microphone access to continue"%string] |}
  ∧ st w' = st mount
  ∧ recorders (rt w') = ∅.
Proof.
  intros Hr Hm. destruct (pending_pristine w Hr Hm) as [b ->]. cbv zeta.
  match goal with |- context [run ?W _] =>
    destruct (idle_forever W evs) as (-> & -> & ->); [by split_and!|] end.
  done.
Qed.

Lemma commit_fires w :
  deps w ≠ effectDeps (rt w) → cameraReady (st w) = true →
  is_Some (currentQuestion (st w)) →
  commit w = startRecording (render (set_effectDeps (deps w) w)) (set_effectDeps (deps w) w).
Proof.
  intros Hd Hc Hq. unfold commit. rewrite decide_False by done.
  assert (cameraReady (st (set_effectDeps (deps w) w)) = true) as -> by by open_world w.
  assert (currentQuestion (render (set_effectDeps (deps w) w)) = currentQuestion (st w))
    as -> by by open_world w.
  by rewrite bool_decide_eq_true_2.
Qed.

Lemma startRecording_fails r w stream :
  streamRef (refs w) = Some stream → recording r = false →
  audioTracks stream = 0%nat ∨ ¬ can_construct →
  startRecording r w = recorderError (set_uploadLockedRef false (set_audioChunksRef [] w)).
Proof.
  intros Hs Hr Hno. unfold startRecording. rewrite Hs, Hr.
  case_decide; [done|]. destruct Hno as [?|Hno]; [done|].
  destruct (construct browser (find _ _)) as [m|] eqn:H1.
  { destruct Hno. left. by rewrite H1. }
  destruct (construct browser None) as [m|] eqn:H2; [|done].
  destruct Hno. right. by rewrite H2.
Qed.

(** If the stream has no audio track, or the browser cannot construct a
    recorder, with or without the preferred type, the first recording
    fails: the component says so once and that is all it ever does. *)
Theorem recorder_unavailable w tracks evs :
  reachable w → mediaPending (rt w) = true →
  tracks = 0%nat ∨ ¬ can_construct →
  questions ≠ [] →
  let w' := run (step w (EvMediaGranted tracks)) evs in
  log w' = {| uploads := []; analyzeCalls := []; completions := 0;
              alerts := ["Recording could not start. Check microphone permissions."%string] |}
  ∧ recording (st w') = false
  ∧ recorders (rt w') = ∅.
Proof.
  intros Hr Hm Hno Hq. destruct (pending_pristine w Hr Hm) as [b ->]. cbv zeta.
  destruct (lookup_lt_is_Some_2 questions 0%nat) as [q0 Hq0].
  { destruct questions; [done|simpl; lia]. }
  unfold step. rewrite commit_fires; [|done|done|by exists q0].
  erewrite startRecording_fails; [|reflexivity|reflexivity|exact Hno].
  match goal with |- context [run ?W _] =>
    destruct (idle_forever W evs) as (-> & -> & ->); [by split_and!|] end.
  done.
Qed.

(** Without questions nothing is ever recorded, uploaded or analysed,
    and [onComplete] is never called: the session cannot be finished. *)
Theorem no_questions_no_session w :
  reachable w → questions = [] →
  outputs w = ([], [], 0%nat)
  ∧ recorders (rt w) = ∅
  ∧ recording (st w) = false.
Proof.
  intros Hr Hq.
  cut ((mediaPending (rt w) = true ∨ idle w)
       ∧ outputs w = ([], [], 0%nat) ∧ recorders (rt w) = ∅ ∧ recording (st w) = false);
    [by intros [_ ?]|].
  revert w Hr. apply reachable_ind; [by split_and!; [left|..]|].
  intros w e Hr ([Hm|Hi] & Ho & Hrecs & Hrec).
  - destruct (pending_pristine w Hr Hm) as [b ->].
    assert (currentQuestion (st (handle e (set_uploadLockedRef b mount))) = None) as Hcq.
    { unfold currentQuestion. by rewrite Hq. }
    destruct e; unfold step, commit; simpl in *; rewrite ?Hcq; simpl;
      try (split_and!; [by left|done..]).
    + split_and!; [right|done..]. by split_and!.
    + split_and!; [right|done..]. by split_and!.
  - destruct (idle_step e w Hi) as (Hi' & Hl & Hs).
    split_and!; [by right| | |by rewrite Hs].
    + unfold outputs. by rewrite Hl.
    + by destruct Hi'.
Qed.

(** *** A session ended question by question with "Next" *)

(** The type of the recorders: what the constructor answers for the
    preferred type, or else without one. *)
Lemma startRecording_succeeds :
  can_construct →
  ∃ mime, ∀ r w stream,
    streamRef (refs w) = Some stream → recording r = false →
    audioTracks stream ≠ 0%nat →
    startRecording r w = started mime r w.
Proof.
  intros Hc.
  destruct (construct browser (List.find (isTypeSupported browser) types)) as [m|] eqn:H1.
  - exists m. intros r w stream Hs Hr Ht. unfold startRecording.
    rewrite Hs, Hr. rewrite decide_False by done. rewrite H1. by open_world w.
  - destruct Hc as [[m Hm]|[m Hm]]; [congruence|].
    exists m. intros r w stream Hs Hr Ht. unfold startRecording.
    rewrite Hs, Hr. rewrite decide_False by done. rewrite H1, Hm. by open_world w.
Qed.

(** The camera is ready once there is a stream. *)
Lemma stream_ready w :
  reachable w → is_Some (streamRef (refs w)) → cameraReady (st w) = true.
Proof.
  revert w. apply (reachable_ind (λ w, is_Some (streamRef (refs w)) →
                                        cameraReady (st w) = true)).
  { simpl. by intros [? ?]. }
  intros w e _ IH.
  assert (is_Some (streamRef (refs (handle e w))) → cameraReady (st (handle e w)) = true)
    as Hh.
  { destruct e; simpl; all_handlers; open_world w; fields;
      repeat case_match; simplify_eq; fields; try done.
    all: first [by intros [? ?] | intros _; apply IH; by eexists]. }
  unfold step, commit. case_decide; [done|].
  assert (∀ w', (is_Some (streamRef (refs w')) → cameraReady (st w') = true) →
            is_Some (streamRef (refs (set_effectDeps (deps w') w'))) →
            cameraReady (st (set_effectDeps (deps w') w')) = true) as Hset.
  { intros w'. by open_world w'. }
  case_match; [|by apply Hset].
  match goal with |- context [startRecording ?r ?w] =>
    destruct (startRecording_cases r w) as [->|[->|(mime & _ & _ & ->)]] end;
    [by apply Hset| |].
  - intros Hs. apply (Hset _ Hh). by destruct (handle e w) as [? [] ? ?].
  - simpl. intros Hs. by apply Hh.
Qed.

(** One question ended by "Next": the answer is submitted; when the
    upload is accepted, the next question is being recorded, or, after
    the last question, the analysis is out. *)
Lemma forced_round_advances mime w i m size :
  (∀ r w stream,
     streamRef (refs w) = Some stream → recording r = false →
     audioTracks stream ≠ 0%nat →
     startRecording r w = started mime r w) →
  reachable w →
  recorders (rt w) !! i = Some m → phase m = Recording → mimeType m = mime →
  streamRef (refs w) = Some {| audioTracks := 1; tracksStopped := false |} →
  ∃ q,
    currentQuestion (st w) = Some q ∧
    let w3 := run w [EvClickNext; EvRecorderStopped i size;
                     EvUploadResponse (S (nextId (rt w))) ResponseOk] in
    uploads (log w3)
    = uploads (log w) ++ [submission q (answer_blob (with_data [] size) mime)]
    ∧ completions (log w3) = 0%nat
    ∧ ((S (currentQuestionIndex (st w)) < length questions)%nat →
         currentQuestionIndex (st w3) = S (currentQuestionIndex (st w))
         ∧ streamRef (refs w3) = streamRef (refs w)
         ∧ (∃ m', recorders (rt w3) !! S (S (nextId (rt w))) = Some m'
                  ∧ phase m' = Recording ∧ mimeType m' = mime)
         ∧ nextId (rt w3) = S (S (S (S (nextId (rt w))))))
    ∧ (S (currentQuestionIndex (st w)) = length questions →
         analyzeFetches (rt w3) = {[S (S (nextId (rt w))) := ()]}
         ∧ analyzeCalls (log w3) = [session_id sessionData]).
Proof.
  intros Hstart Hr Hi Hp Hmime Hs.
  destruct (active_facts w i Hr) as
    (Hm & [q Hq] & Hrec & Hch & Hlock & Hufs & Hupl & Hana & Hd & Hafs & Hmp);
    [by exists m|].
  pose proof (reachable_Inv w Hr) as [_ HI].
  pose proof (stream_ready w Hr) as Hcam. rewrite Hs in Hcam. specialize (Hcam (mk_is_Some _ _ eq_refl)).
  destruct (inv_before _ HI Hana) as (Hacs & Hcomp & _). clear HI Hr.
  exists q. split; [done|].
  unfold currentQuestion, submission, answer_blob, with_data in *. cbv zeta.
  destruct m as [? ? mime0]. open_hyps.
  assert (idx < length questions)%nat as Hlt by (by eapply lookup_lt_Some).
  destruct (decide (0 < size)%nat), (decide (S idx < length questions)%nat).
  all: exec; exec.
  all: rewrite run_one; unfold step;
    match goal with |- context [handle ?e ?W] =>
      eassert (handle e W = _) as ->; [exec_handle|] end.
  1,3: rewrite commit_fires; [|simpl; intros [= ?]; lia|done|simpl; by apply lookup_lt_is_Some_2];
    erewrite Hstart; [|reflexivity..|done];
    simpl; split_and!; try done; try lia;
    intros _; split_and!; try done;
    eexists; rewrite lookup_insert_eq; by split_and!.
  all: rewrite commit_settled by done; simpl; split_and!; try done; try lia;
    intros _; by rewrite insert_empty.
Qed.

(** The rounds from question [j] to the last one. *)
Lemma forced_rounds mime size :
  (∀ r w stream,
     streamRef (refs w) = Some stream → recording r = false →
     audioTracks stream ≠ 0%nat →
     startRecording r w = started mime r w) →
  ∀ d j w,
    (S j + d)%nat = length questions →
    reachable w → currentQuestionIndex (st w) = j →
    (∃ m, recorders (rt w) !! (4 * j)%nat = Some m ∧ phase m = Recording
          ∧ mimeType m = mime) →
    nextId (rt w) = (4 * j + 2)%nat →
    streamRef (refs w) = Some {| audioTracks := 1; tracksStopped := false |} →
    let w' := run w (flat_map (forced_round size) (seq j (S d))) in
    reachable w'
    ∧ uploads (log w')
      = uploads (log w)
        ++ imap (λ k q, submission q (answer_blob (with_data [] (size (j + k)%nat)) mime))
             (drop j questions)
    ∧ completions (log w') = 0%nat
    ∧ analyzeFetches (rt w') = {[(4 * length questions)%nat := ()]}
    ∧ analyzeCalls (log w') = [session_id sessionData].
Proof.
  intros Hstart d. induction d as [|d IH]; intros j w Hn Hr Hidx (m & Hi & Hp & Hm) Hnid Hs.
  2: cbn [seq flat_map] in IH; cbv zeta in IH.
  all: destruct (forced_round_advances mime w (4 * j) m (size j) Hstart Hr Hi Hp Hm Hs)
    as (q & Hq & Hw3); cbv zeta in Hw3.
  all: unfold currentQuestion in Hq; rewrite Hidx in Hq.
  all: rewrite (drop_S _ _ _ Hq), imap_cons, Nat.add_0_r.
  all: cbn [seq flat_map]; cbv zeta;
    change (forced_round size j)
      with [EvClickNext; EvRecorderStopped (4 * j) (size j);
            EvUploadResponse (4 * j + 3) ResponseOk].
  all: replace (4 * j + 3)%nat with (S (nextId (rt w))) by lia.
  1: rewrite app_nil_r.
  2: rewrite run_app.
  all: match type of Hw3 with context [run ?w0 ?evs] =>
         pose proof (reachable_run w0 evs Hr) as Hr3;
         set (w3 := run w0 evs) in *; clearbody w3 end.
  - destruct Hw3 as (Hup & Hcomp & _ & Hlast).
    destruct Hlast as [Hafs Hacs]; [lia|].
    split_and!; [exact Hr3| |exact Hcomp| |exact Hacs].
    + rewrite Hup, drop_ge by lia. reflexivity.
    + rewrite Hafs. f_equal. lia.
  - destruct Hw3 as (Hup & Hcomp & Hnext & _).
    destruct Hnext as (Hidx' & Hs' & (m' & Hi' & Hp' & Hm') & Hnid'); [lia|].
    destruct (IH (S j) w3) as (Hr4 & Hup4 & Hcomp4 & Hafs4 & Hacs4);
      [lia|exact Hr3|lia| |lia|congruence|].
    { exists m'. split_and!; [|assumption..]. rewrite <- Hi'. f_equal. lia. }
    split_and!; [exact Hr4| |assumption..].
    rewrite Hup4, Hup, <- (assoc_L (++)). f_equal. cbn [app]. f_equal.
    apply imap_ext. intros k q' _. cbn. by rewrite Nat.add_succ_r.
Qed.

Lemma commit_log w :
  uploads (log (commit w)) = uploads (log w)
  ∧ analyzeCalls (log (commit w)) = analyzeCalls (log w)
  ∧ completions (log (commit w)) = completions (log w).
Proof.
  destruct (commit_frame w) as (Ho & _). unfold outputs in Ho.
  by injection Ho as -> -> ->.
Qed.

(** The interview can always be completed.  With at least one question
    and a browser that can construct a recorder, let the camera be
    granted, every question be ended by "Next" (question [j] with
    [size j] bytes recorded) and every upload be accepted.  Then the
    component has sent one submission per question, in the order of the
    list and with the data recorded for that question, has requested the
    analysis once, and has called [onComplete] once when the analysis
    answered, whether it succeeded or not. *)
Theorem forced_session_completes size res :
  can_construct → questions ≠ [] →
  ∃ mime,
    let w := run mount (forced_run size (length questions) res) in
    uploads (log w)
    = imap (λ j q, submission q (answer_blob (with_data [] (size j)) mime)) questions
    ∧ analyzeCalls (log w) = [session_id sessionData]
    ∧ completions (log w) = 1%nat.
Proof.
  intros Hc Hq. destruct (startRecording_succeeds Hc) as [mime Hstart].
  exists mime. cbv zeta. unfold forced_run. rewrite run_cons, run_app.
  destruct (lookup_lt_is_Some_2 questions 0%nat) as [q0 Hq0].
  { destruct questions; [done|simpl; lia]. }
  assert (∃ d, length questions = S d) as [d Hd].
  { destruct questions; [done|]. by eexists. }
  assert (reachable (step mount (EvMediaGranted 1))) as Hr1
    by apply reachable_step, reachable_mount.
  assert (step mount (EvMediaGranted 1)
          = started mime (render (set_effectDeps (0%nat, true)
                                    (startCamera_resume (Some 1%nat) mount)))
              (set_effectDeps (0%nat, true) (startCamera_resume (Some 1%nat) mount)))
    as Hw1.
  { unfold step. rewrite commit_fires; [|done|done|by exists q0].
    by erewrite Hstart. }
  destruct (forced_rounds mime size Hstart d 0%nat (step mount (EvMediaGranted 1)))
    as (Hr & Hup & Hcomp & Hafs & Hacs); [lia|done|by rewrite Hw1|..].
  { rewrite Hw1. eexists. split; [apply lookup_insert_eq|]. done. }
  { by rewrite Hw1. }
  { by rewrite Hw1. }
  rewrite Hd in Hafs. rewrite Hd.
  match goal with |- context [run ?W [_]] => set (w' := W) in * end.
  rewrite run_one. unfold step.
  destruct (commit_log (handle (EvAnalyzeResponse (4 * S d) res) w')) as (-> & -> & ->).
  simpl. unfold analyzeInterview_resume. rewrite Hafs, lookup_singleton_eq.
  rewrite Hw1 in Hup. simpl in Hup. rewrite drop_0 in Hup.
  clearbody w'. open_world w'. simpl in *. subst. by destruct res.
Qed.

(** *** A recording that ends without data *)

(** When a recording in progress ends by the recorder's own stop and no
    data was recorded, nothing is submitted for the question, and nothing
    is ever submitted afterwards, whatever happens, "Next" included: the
    session stays on that question. *)
Theorem silent_stop_is_final w i evs :
  reachable w → active w i →
  let w2 := run w [EvRecorderEnded i; EvRecorderStopped i 0] in
  outputs w2 = outputs w
  ∧ outputs (run w2 evs) = outputs w
  ∧ currentQuestionIndex (st (run w2 evs)) = currentQuestionIndex (st w).
Proof.
  intros Hr (m & Hi & Hp). cbv zeta.
  destruct (active_facts w i Hr) as
    (Hm & _ & _ & Hch & Hlock & Hufs & Hupl & Hana & Hd & Hafs & Hmp); [by exists m|].
  destruct (recording_natural w Hr i m Hi Hp) as (r0 & Hon & _).
  pose proof (λ m', delivered_stopped w i (stop_recorder m) m'
                      (alter stop_recorder i (recorders (rt w))) Hr Hm) as Hst.
  clear Hr. destruct m as [? ? ?], r0 as [? ? ? ? ? ?]. open_hyps.
  exec. exec. rewrite run_nil.
  match goal with |- _ ∧ outputs (run ?W _) = _ ∧ _ =>
    destruct (halted_forever W evs) as [-> ->]; [|done] end.
  split_and!; try done. unfold all_stopped. simpl.
  apply Hst; [by rewrite lookup_alter_eq, Hi|done|].
  intros j Hj. by rewrite lookup_alter_ne.
Qed.

(** *** The countdown of a question *)










End Properties.

(** ** The properties at work on the two sessions *)

Lemma timed_out_fixed : step (env := demo_env) (timed_out 0) (EvTick 1) = timed_out 0.
Proof. vm_compute. reflexivity. Qed.

Lemma timed_out_S n : timed_out (S n) = step (env := demo_env) (timed_out n) (EvTick 1).
Proof.
  unfold timed_out. rewrite <- run_snoc. f_equal.
  cbn [Nat.add repeat app]. do 4 f_equal. apply repeat_cons.
Qed.

Lemma timed_out_any n : timed_out n = timed_out 0.
Proof.
  induction n as [|n IH]; [done|]. rewrite timed_out_S, IH. exact timed_out_fixed.
Qed.

(** C1 (the code does otherwise): in the two-question session, question
    10 is left to its timer.  When the three seconds are over and however
    long one waits after that, nothing was uploaded, the recorder of
    question 10 still records and the session is still at question 10:
    the question's answer is omitted. *)
Theorem C1_timer_expiry_sends_nothing n :
  outputs (timed_out n) = ([], [], 0%nat)
  ∧ uploads_for 10 (timed_out n) = []
  ∧ timeLeft (st (timed_out n)) = 0
  ∧ currentQuestionIndex (st (timed_out n)) = 0%nat
  ∧ phase <$> recorders (rt (timed_out n)) !! 0%nat = Some Recording.
Proof. rewrite timed_out_any. vm_compute. by split_and!. Qed.

(** With every question ended by "Next" the session does what the spec
    asks: one submission per question, in order, the second one empty,
    one analysis call and one completion. *)
Lemma forced_session_outputs :
  outputs forced_session
  = ([ {| u_session := "s1"; u_question := 10;
          u_audio := {| blobParts := [5%nat]; blobType := "audio/webm" |} |};
       {| u_session := "s1"; u_question := 11;
          u_audio := {| blobParts := []; blobType := "audio/webm" |} |} ],
     ["s1"%string], 1%nat).
Proof. vm_compute. reflexivity. Qed.

(** In the two-question session the recorder of question 10 stops on
    its own without data and the user then presses "Next": both events
    have occurred for the recording, and no upload was sent, none is out,
    and the recorder is stopped so that no stop event can follow. *)
Lemma silent_stop_then_next_sends_nothing :
  uploads (log silent_stop_then_next) = []
  ∧ uploadFetches (rt silent_stop_then_next) = ∅
  ∧ phase <$> recorders (rt silent_stop_then_next) !! 0%nat = Some Stopped.
Proof. vm_compute. by split_and!. Qed.

Lemma C2_witness :
  uploads (log (run (env := demo_env) recording_q0
                  [EvRecorderEnded 0; EvRecorderStopped 0 0; EvClickNext]))
  = uploads (log recording_q0)
  ∧ ∀ evs,
      outputs (run (env := demo_env)
                 (run (env := demo_env) recording_q0
                    [EvRecorderEnded 0; EvRecorderStopped 0 0; EvClickNext]) evs)
      = outputs recording_q0.
Proof.
  destruct (C2_next_after_silent_stop_hangs (env := demo_env) recording_q0 0 5)
    as (q & mime & _ & _ & _ & H0 & _ & _ & Hever).
  - by eexists.
  - eexists. split; reflexivity.
  - split; [exact H0|exact Hever].
Defined.

Lemma C3_witness :
  outputs (step (env := demo_env) (stopRecording (render recording_q0) recording_q0)
             (EvRecorderStopped 0 5))
  = outputs recording_q0.
Proof.
  refine (proj1 (proj2 (proj2 (proj2
    (proj2 (C3_timer_stop_is_locked (env := demo_env) recording_q0 0%nat _ _)
       (render recording_q0) 5%nat _))))).
  - by eexists.
  - eexists. split; reflexivity.
  - reflexivity.
Defined.

(** C4 (the code does otherwise): a forced advance leaves the countdown
    armed: [handleNextQuestion] touches neither the intervals nor
    [timerRef].  In the two-question session, after question 10 was
    ended by "Next" and uploaded, question 11 is being recorded with 90
    seconds on the clock, the interval of question 10 (number 1) is still
    live next to the new one (number 5), and its tick takes a second off
    the time of question 11. *)
Theorem C4_forced_advance_keeps_timer :
  (∀ (env : Env) r w,
      intervals (rt (handleNextQuestion r w)) = intervals (rt w)
      ∧ timerRef (refs (handleNextQuestion r w)) = timerRef (refs w))
  ∧ currentQuestionIndex (st advanced) = 1%nat
  ∧ phase <$> recorders (rt advanced) !! 4%nat = Some Recording
  ∧ timeLeft (st advanced) = 90
  ∧ timerRef (refs advanced) = Some 5%nat
  ∧ currentQuestionIndex <$> intervals (rt advanced) !! 1%nat = Some 0%nat
  ∧ timeLeft (st (step (env := demo_env) advanced (EvTick 1))) = 89.
Proof.
  split; [|vm_compute; by split_and!].
  intros env r w. unfold handleNextQuestion. open_world w.
  destruct r as [? [] ? ? ? ?], mref; by fields.
Qed.

(** The claim C5 fails on the code: in the two-question session the
    recording of question 10 finishes, by the recorder's own stop, with
    zero chunks; no submission was sent for question 10 and none is out. *)
Lemma C5_counterexample :
  audioChunksRef (refs silent_stop) = []
  ∧ phase <$> recorders (rt silent_stop) !! 0%nat = Some Stopped
  ∧ uploads_for 10 silent_stop = []
  ∧ uploadFetches (rt silent_stop) = ∅.
Proof. vm_compute. by split_and!. Qed.

Lemma C5_witness :
  ∃ q,
    currentQuestion (env := demo_env) (st recording_q0) = Some q
    ∧ uploads (log (run (env := demo_env) recording_q0
                      [EvClickNext; EvRecorderStopped 0 0]))
      = uploads (log recording_q0)
        ++ [submission (env := demo_env) q
              {| blobParts := []; blobType := "audio/webm" |}].
Proof.
  destruct (C5_empty_answer_on_forced_advance (env := demo_env) recording_q0 0)
    as (q & Hq & H1 & _).
  - by eexists.
  - eexists. split; reflexivity.
  - by exists q.
Defined.

Lemma C6_witness :
  ∃ q mime,
    currentQuestion (env := demo_env) (st recording_q0) = Some q ∧
    ∀ evs,
      evs = [EvClickNext; EvClickNext; EvRecorderStopped 0 5]
      ∨ evs = [EvClickNext; EvRecorderStopped 0 5; EvClickNext] →
      let w3 := run (env := demo_env) recording_q0 evs in
      uploads (log w3)
      = uploads (log recording_q0)
        ++ [submission (env := demo_env) q (answer_blob (with_data [] 5) mime)]
      ∧ ∃ f r, uploadFetches (rt w3) = {[f := r]}
          ∧ let w4 := step (env := demo_env) w3 (EvUploadResponse f ResponseOk) in
            uploads (log w4) = uploads (log w3)
            ∧ ((S (currentQuestionIndex (st recording_q0))
                < length (questions (env := demo_env)))%nat →
                 currentQuestionIndex (st w4) = S (currentQuestionIndex (st recording_q0))
                 ∧ analyzeCalls (log w4) = [])
            ∧ (S (currentQuestionIndex (st recording_q0))
               = length (questions (env := demo_env)) →
                 currentQuestionIndex (st w4) = currentQuestionIndex (st recording_q0)
                 ∧ analyzeCalls (log w4) = [session_id (sessionData (Env := demo_env))]).
Proof.
  apply (C6_double_advance (env := demo_env) recording_q0 0 5).
  - by eexists.
  - eexists. split; reflexivity.
Defined.

Lemma C7_witness :
  outputs (step (env := solo_env) last_upload_pending (EvUploadResponse 3 ResponseOk))
  = (uploads (log last_upload_pending), ["s1"%string], 0%nat).
Proof.
  refine (proj1 (proj2 (C7_analysis_and_completion_once (env := solo_env)
                   last_upload_pending 3
                   {| currentQuestionIndex := 0; recording := true; timeLeft := 3;
                      uploading := false; analyzing := false; cameraReady := true |}
                   _ _ _))).
  - by eexists.
  - vm_compute. reflexivity.
  - reflexivity.
Defined.

Lemma C8_witness :
  currentQuestionIndex
    (st (step (env := demo_env) upload_pending (EvUploadResponse 3 ResponseNotOk)))
  = currentQuestionIndex (st upload_pending).
Proof.
  refine (proj1 (C8_upload_failure_halts (env := demo_env) upload_pending 3
                   {| currentQuestionIndex := 0; recording := true; timeLeft := 3;
                      uploading := false; analyzing := false; cameraReady := true |}
                   ResponseNotOk _ _ _)).
  - by eexists.
  - vm_compute. reflexivity.
  - discriminate.
Defined.


Lemma C10_witness :
  let w := run (env := demo_env) mount [EvMediaGranted 1] in
  startRecording (env := demo_env) (render w) w = w.
Proof.
  intros w. destruct (C10_start_is_guarded (env := demo_env)) as (H1 & H2 & H3).
  assert (reachable (env := demo_env) w) as Hr by (by exists [EvMediaGranted 1%nat]).
  assert (active w 0) as Ha by (eexists; split; reflexivity).
  pose proof (H2 w 0%nat 0%nat Hr Ha Ha) as _.
  pose proof (H1 (render w) w (or_intror eq_refl)) as _.
  exact (H3 w 0%nat Hr Ha).
Defined.

(** ** The further properties at work *)

Lemma submissions_follow_questions_witness :
  let n := length (uploads (log upload_pending)) in
  answers (env := demo_env) (uploads (log upload_pending))
    (take n (questions (env := demo_env)))
  ∧ (n = currentQuestionIndex (st upload_pending)
     ∨ n = S (currentQuestionIndex (st upload_pending)))
  ∧ (n ≤ length (questions (env := demo_env)))%nat.
Proof.
  apply (submissions_follow_questions (env := demo_env) upload_pending).
  by eexists.
Defined.

Lemma analysis_after_every_answer_witness :
  answers (env := solo_env) (uploads (log analysis_pending)) (questions (env := solo_env))
  ∧ S (currentQuestionIndex (st analysis_pending)) = length (questions (env := solo_env)).
Proof.
  apply (analysis_after_every_answer (env := solo_env) analysis_pending).
  - by eexists.
  - left. vm_compute. discriminate.
Defined.

Lemma analysis_at_most_once_witness :
  (analyzeCalls (log analysis_pending) = [] ∧ completions (log analysis_pending) = 0%nat)
  ∨ (analyzeCalls (log analysis_pending) = [session_id (sessionData (Env := solo_env))]
     ∧ (completions (log analysis_pending) ≤ 1)%nat).
Proof.
  apply (analysis_at_most_once (env := solo_env) analysis_pending). by eexists.
Defined.

Lemma one_submission_per_id_witness :
  (length (uploads_for 10 upload_pending) ≤ 1)%nat.
Proof.
  apply (one_submission_per_id (env := demo_env) upload_pending 10%nat).
  - by eexists.
  - refine (bool_decide_unpack _ _). vm_compute. exact I.
Defined.

Lemma page_shows_the_current_question_witness :
  is_Some (questionText (env := demo_env) (st recording_q0)).
Proof.
  refine (proj1 (page_shows_the_current_question (env := demo_env) recording_q0 _ _)).
  - by eexists.
  - discriminate.
Defined.

Lemma next_disabled_while_busy_witness :
  nextDisabled (st upload_pending) = true
  ↔ uploadFetches (rt upload_pending) ≠ ∅ ∨ analyzing (st upload_pending) = true.
Proof.
  refine (proj1 (next_disabled_while_busy (env := demo_env) upload_pending _)).
  by eexists.
Defined.

Lemma clock_in_range_witness :
  0 ≤ timeLeft (st recording_q0) ≤ MAX_SAFE_INTEGER.
Proof.
  refine (proj1 (clock_in_range (env := demo_env) recording_q0 90 _ _ _)).
  - by eexists.
  - unfold MAX_SAFE_INTEGER. lia.
  - intros q z Hq Hz. unfold questions, questions_of in Hq. simpl in Hq.
    unfold demo_questions in Hq.
    repeat match goal with
      | H : _ ∈ _ :: _ |- _ => apply elem_of_cons in H as [->|H]
      | H : _ ∈ [] |- _ => by apply elem_of_nil in H
      end; simpl in Hz; simplify_eq; lia.
Defined.

Lemma uploads_well_formed_witness :
  Forall (λ u, well_formed (u_audio u)) (uploads (log upload_pending)).
Proof.
  apply (uploads_well_formed (env := demo_env) upload_pending). by eexists.
Defined.

Lemma unmount_leaves_earlier_timers_witness :
  recorders (rt (unmount second_question)) = recorders (rt second_question).
Proof.
  refine (proj1 (proj2 (unmount_leaves_earlier_timers (env := demo_env) second_question _))).
  by eexists.
Defined.

Lemma camera_refused_witness :
  recorders (rt (run (env := demo_env) (step (env := demo_env) mount EvMediaDenied) [EvClickNext])) = ∅.
Proof.
  refine (proj2 (proj2 (camera_refused (env := demo_env) mount [EvClickNext] _ _))).
  - by exists [].
  - reflexivity.
Defined.

Lemma recorder_unavailable_witness :
  recorders (rt (run (env := demo_env) (step (env := demo_env) mount (EvMediaGranted 0))
                   [EvClickNext])) = ∅.
Proof.
  refine (proj2 (proj2 (recorder_unavailable (env := demo_env) mount 0 [EvClickNext] _ _ _ _))).
  - by exists [].
  - reflexivity.
  - by left.
  - discriminate.
Defined.

Lemma no_questions_no_session_witness :
  outputs (run (env := empty_env) mount [EvMediaGranted 1; EvClickNext]) = ([], [], 0%nat).
Proof.
  refine (proj1 (no_questions_no_session (env := empty_env)
                   (run (env := empty_env) mount [EvMediaGranted 1; EvClickNext]) _ _)).
  - by eexists.
  - reflexivity.
Defined.

Lemma forced_session_completes_witness :
  ∃ mime,
    let w := run (env := demo_env) mount
               (forced_run (λ _, 0%nat) (length (questions (env := demo_env))) ResponseOk) in
    uploads (log w)
    = imap (λ j q, submission (env := demo_env) q (answer_blob (with_data [] 0) mime))
        (questions (env := demo_env))
    ∧ analyzeCalls (log w) = [session_id (sessionData (Env := demo_env))]
    ∧ completions (log w) = 1%nat.
Proof.
  apply (forced_session_completes (env := demo_env) (λ _, 0%nat) ResponseOk).
  - left. eexists. reflexivity.
  - discriminate.
Defined.

Lemma formatTime_minutes_and_seconds_witness :
  formatTime 90
  = String_of_number (90 / 60) +:+ ":"
    +:+ String_of_number (90 mod 60 / 10) +:+ String_of_number (90 mod 60 mod 10)
  ∧ String.length (String_of_number (90 mod 60 / 10)) = 1%nat
  ∧ String.length (String_of_number (90 mod 60 mod 10)) = 1%nat.
Proof.
  apply (formatTime_minutes_and_seconds 90). unfold MAX_SAFE_INTEGER. lia.
Defined.

Lemma formatTime_inj_witness : 75 = 60 + 15.
Proof.
  apply (formatTime_inj 75 (60 + 15)).
  - unfold MAX_SAFE_INTEGER. lia.
  - unfold MAX_SAFE_INTEGER. lia.
  - reflexivity.
Defined.

Lemma silent_stop_is_final_witness :
  outputs (run (env := demo_env) recording_q0 [EvRecorderEnded 0; EvRecorderStopped 0 0])
  = outputs recording_q0.
Proof.
  refine (proj1 (silent_stop_is_final (env := demo_env) recording_q0 0 [EvClickNext] _ _)).
  - by eexists.
  - eexists. split; reflexivity.
Defined.

